(** * QNonContiguousByteDevice: a shallow embedding

    Model of [src/corelib/io/qnoncontiguousbytedevice.cpp]: the read-pointer
    devices over a byte array, a QBuffer window, a ring buffer and a generic
    QIODevice, and the QIODevice wrapper around any of them.

    Conventions.
    - [qint64] values are integers of [Z]. Signed overflow is undefined in
      C++, so the model describes the executions in which no [qint64]
      computation leaves its range: a theorem about a sum or a difference
      of such values has the hypothesis that the call computes within
      [qint64], or hypotheses that bound the values.
    - A member function that mutates its object takes the object's state and
      returns [(result, state', signals)], where [signals] lists the
      [readProgress] emissions of the call in order.
    - A [const char *] is [nullptr] or an offset into a byte array. *)

From Stdlib Require Import ZArith List Bool Lia Sorted.
From Stdlib Require Import Strings.String Strings.Byte.
Import ListNotations.
Local Open Scope Z_scope.

(** ** Bytes, pointers and signals *)

Definition QByteArray := list byte.

Definition qsize (ba : QByteArray) : Z := Z.of_nat (List.length ba).

(** [ptr_at data off] is the address [data + off]. *)
Inductive char_ptr :=
| nullptr
| ptr_at (data : QByteArray) (off : Z).

(** The [len] bytes readable from a pointer. *)
Definition bytes_at (p : char_ptr) (len : Z) : list byte :=
  match p with
  | nullptr => []
  | ptr_at data off => firstn (Z.to_nat len) (skipn (Z.to_nat off) data)
  end.

(** [memcpy dst src len]: the destination after the first [len] bytes were
    overwritten. *)
Definition memcpy (dst : list byte) (src : char_ptr) (len : Z) : list byte :=
  let bs := bytes_at src len in
  bs ++ skipn (List.length bs) dst.

(** The signal [readProgress(current, total)]. *)
Record Signal := readProgress { current : Z; total : Z }.

(** ** The QIODevice a device is built on

    QIODevice is declared outside this file; its member functions are taken
    as parameters. [dev_read maxlen d] returns the value of
    [read(data, maxlen)], the bytes it stored at [data] and the device
    afterwards. *)
Class QIODevice (D : Type) := {
  dev_read : Z -> D -> Z * list byte * D;
  dev_getChar : D -> bool * D;
  dev_atEnd : D -> bool;
  dev_isSequential : D -> bool;
  dev_size : D -> Z;
  dev_pos : D -> Z;
  dev_reset : D -> bool * D;
  dev_seek : Z -> D -> bool * D
}.

(** ** QNonContiguousByteDeviceByteArrayImpl *)
Module ByteArrayImpl.

Record t := { byteArray : QByteArray; currentPosition : Z }.

Definition ctor (ba : QByteArray) : t :=
  {| byteArray := ba; currentPosition := 0 |}.

Definition size (s : t) : Z := qsize (byteArray s).

Definition atEnd (s : t) : bool := currentPosition s >=? size s.

Definition readPointer (maximumLength : Z) (s : t)
  : (char_ptr * Z) * t * list Signal :=
  if atEnd s then ((nullptr, -1), s, [])
  else
    let len :=
      if negb (maximumLength =? -1)
      then Z.min maximumLength (size s - currentPosition s)
      else size s - currentPosition s in
    ((ptr_at (byteArray s) (currentPosition s), len), s, []).

Definition advanceReadPointer (amount : Z) (s : t)
  : bool * t * list Signal :=
  let s := {| byteArray := byteArray s;
              currentPosition := currentPosition s + amount |} in
  (true, s, [readProgress (currentPosition s) (size s)]).

Definition reset (s : t) : bool * t :=
  (true, {| byteArray := byteArray s; currentPosition := 0 |}).

Definition pos (s : t) : Z := currentPosition s.

End ByteArrayImpl.

(** ** QNonContiguousByteDeviceBufferImpl *)
Module BufferImpl.

(** The QBuffer behind the device: its bytes and its position. *)
Record QBuffer := { buffer_data : QByteArray; buffer_pos : Z }.

(** [byteArray] is the window from the buffer's position to its end, and
    [arrayImpl] the byte-array device over that window. *)
Record t := {
  buffer : QBuffer;
  byteArray : QByteArray;
  arrayImpl : ByteArrayImpl.t
}.

Definition ctor (b : QBuffer) : t :=
  let window := skipn (Z.to_nat (buffer_pos b)) (buffer_data b) in
  {| buffer := b; byteArray := window;
     arrayImpl := ByteArrayImpl.ctor window |}.

Definition with_arrayImpl (a : ByteArrayImpl.t) (s : t) : t :=
  {| buffer := buffer s; byteArray := byteArray s; arrayImpl := a |}.

(** The array device's signals are connected to this device's signals. *)
Definition readPointer (maximumLength : Z) (s : t)
  : (char_ptr * Z) * t * list Signal :=
  let '(r, a, sig) := ByteArrayImpl.readPointer maximumLength (arrayImpl s) in
  (r, with_arrayImpl a s, sig).

Definition advanceReadPointer (amount : Z) (s : t)
  : bool * t * list Signal :=
  let '(r, a, sig) := ByteArrayImpl.advanceReadPointer amount (arrayImpl s) in
  (r, with_arrayImpl a s, sig).

Definition atEnd (s : t) : bool := ByteArrayImpl.atEnd (arrayImpl s).

Definition reset (s : t) : bool * t :=
  let '(r, a) := ByteArrayImpl.reset (arrayImpl s) in
  (r, with_arrayImpl a s).

Definition size (s : t) : Z := ByteArrayImpl.size (arrayImpl s).

End BufferImpl.

(** ** QNonContiguousByteDeviceRingBufferImpl *)
Module RingBufferImpl.

(** Modelled from the spec: QRingBuffer is declared outside src/. It is a
    logically contiguous but physically segmented buffer, so it is a list
    of chunks; [rb_size] is its byte count and [readPointerAtPosition] its
    primitive that gives a contiguous pointer valid from a logical
    position, with the length of the contiguous run. *)
Definition QRingBuffer := list QByteArray.

Definition rb_size (rb : QRingBuffer) : Z :=
  fold_right (fun chunk n => qsize chunk + n) 0 rb.

Fixpoint readPointerAtPosition (rb : QRingBuffer) (pos : Z) : char_ptr * Z :=
  match rb with
  | [] => (nullptr, 0)
  | chunk :: rest =>
      let length := qsize chunk in
      if length >? pos then (ptr_at chunk pos, length - pos)
      else readPointerAtPosition rest (pos - length)
  end.

Record t := { ringBuffer : QRingBuffer; currentPosition : Z }.

Definition ctor (rb : QRingBuffer) : t :=
  {| ringBuffer := rb; currentPosition := 0 |}.

Definition size (s : t) : Z := rb_size (ringBuffer s).

Definition atEnd (s : t) : bool := currentPosition s >=? size s.

Definition readPointer (maximumLength : Z) (s : t)
  : (char_ptr * Z) * t * list Signal :=
  if atEnd s then ((nullptr, -1), s, [])
  else
    let '(returnValue, len) :=
      readPointerAtPosition (ringBuffer s) (currentPosition s) in
    let len := if negb (maximumLength =? -1)
               then Z.min len maximumLength else len in
    ((returnValue, len), s, []).

Definition advanceReadPointer (amount : Z) (s : t)
  : bool * t * list Signal :=
  let s := {| ringBuffer := ringBuffer s;
              currentPosition := currentPosition s + amount |} in
  (true, s, [readProgress (currentPosition s) (size s)]).

Definition pos (s : t) : Z := currentPosition s.

Definition reset (s : t) : bool * t :=
  (true, {| ringBuffer := ringBuffer s; currentPosition := 0 |}).

End RingBufferImpl.

(** ** QNonContiguousByteDeviceIoDeviceImpl *)
Module IoDeviceImpl.
Section WithDevice.
Context {D : Type} `{QIODevice D}.

(** [currentReadBuffer] is [None] while the pointer is null. *)
Record t := {
  device : D;
  currentReadBuffer : option QByteArray;
  currentReadBufferSize : Z;
  currentReadBufferAmount : Z;
  currentReadBufferPosition : Z;
  totalAdvancements : Z;
  eof : bool;
  initialPosition : Z
}.

Definition ctor (d : D) : t :=
  {| device := d;
     currentReadBuffer := None;
     currentReadBufferSize := 16 * 1024;
     currentReadBufferAmount := 0;
     currentReadBufferPosition := 0;
     totalAdvancements := 0;
     eof := false;
     initialPosition := dev_pos d |}.

Definition set_device (d : D) (s : t) : t :=
  {| device := d;
     currentReadBuffer := currentReadBuffer s;
     currentReadBufferSize := currentReadBufferSize s;
     currentReadBufferAmount := currentReadBufferAmount s;
     currentReadBufferPosition := currentReadBufferPosition s;
     totalAdvancements := totalAdvancements s;
     eof := eof s;
     initialPosition := initialPosition s |}.

Definition set_currentReadBuffer (b : option QByteArray) (s : t) : t :=
  {| device := device s;
     currentReadBuffer := b;
     currentReadBufferSize := currentReadBufferSize s;
     currentReadBufferAmount := currentReadBufferAmount s;
     currentReadBufferPosition := currentReadBufferPosition s;
     totalAdvancements := totalAdvancements s;
     eof := eof s;
     initialPosition := initialPosition s |}.

Definition set_currentReadBufferSize (n : Z) (s : t) : t :=
  {| device := device s;
     currentReadBuffer := currentReadBuffer s;
     currentReadBufferSize := n;
     currentReadBufferAmount := currentReadBufferAmount s;
     currentReadBufferPosition := currentReadBufferPosition s;
     totalAdvancements := totalAdvancements s;
     eof := eof s;
     initialPosition := initialPosition s |}.

Definition set_currentReadBufferAmount (n : Z) (s : t) : t :=
  {| device := device s;
     currentReadBuffer := currentReadBuffer s;
     currentReadBufferSize := currentReadBufferSize s;
     currentReadBufferAmount := n;
     currentReadBufferPosition := currentReadBufferPosition s;
     totalAdvancements := totalAdvancements s;
     eof := eof s;
     initialPosition := initialPosition s |}.

Definition set_currentReadBufferPosition (n : Z) (s : t) : t :=
  {| device := device s;
     currentReadBuffer := currentReadBuffer s;
     currentReadBufferSize := currentReadBufferSize s;
     currentReadBufferAmount := currentReadBufferAmount s;
     currentReadBufferPosition := n;
     totalAdvancements := totalAdvancements s;
     eof := eof s;
     initialPosition := initialPosition s |}.

Definition set_totalAdvancements (n : Z) (s : t) : t :=
  {| device := device s;
     currentReadBuffer := currentReadBuffer s;
     currentReadBufferSize := currentReadBufferSize s;
     currentReadBufferAmount := currentReadBufferAmount s;
     currentReadBufferPosition := currentReadBufferPosition s;
     totalAdvancements := n;
     eof := eof s;
     initialPosition := initialPosition s |}.

Definition set_eof (b : bool) (s : t) : t :=
  {| device := device s;
     currentReadBuffer := currentReadBuffer s;
     currentReadBufferSize := currentReadBufferSize s;
     currentReadBufferAmount := currentReadBufferAmount s;
     currentReadBufferPosition := currentReadBufferPosition s;
     totalAdvancements := totalAdvancements s;
     eof := b;
     initialPosition := initialPosition s |}.

Definition size (s : t) : Z :=
  if dev_isSequential (device s) then -1
  else dev_size (device s) - initialPosition s.

Definition pos (s : t) : Z :=
  if dev_isSequential (device s) then -1 else dev_pos (device s).

Definition atEnd (s : t) : bool := eof s.

(** [QByteArray(size, '\0')]. *)
Definition zeroed (n : Z) : QByteArray := repeat x00 (Z.to_nat n).

(** The buffer after the device stored [data] at its start. *)
Definition store (data : list byte) (buf : QByteArray) : QByteArray :=
  data ++ skipn (List.length data) buf.

Definition readPointer (maximumLength : Z) (s : t)
  : (char_ptr * Z) * t * list Signal :=
  if eof s then ((nullptr, -1), s, [])
  else
    let buf := match currentReadBuffer s with
               | None => zeroed (currentReadBufferSize s)
               | Some b => b
               end in
    let s := set_currentReadBuffer (Some buf) s in
    let maximumLength :=
      if maximumLength =? -1 then currentReadBufferSize s
      else maximumLength in
    if currentReadBufferAmount s - currentReadBufferPosition s >? 0 then
      ((ptr_at buf (currentReadBufferPosition s),
        currentReadBufferAmount s - currentReadBufferPosition s), s, [])
    else
      let '(haveRead, data, d) :=
        dev_read (Z.min maximumLength (currentReadBufferSize s)) (device s) in
      let buf := store data buf in
      let s := set_device d (set_currentReadBuffer (Some buf) s) in
      if (haveRead =? -1)
         || ((haveRead =? 0) && dev_atEnd d && negb (dev_isSequential d))
      then
        let s := set_eof true s in
        ((nullptr, -1), s,
         if size s =? -1
         then [readProgress (totalAdvancements s) (totalAdvancements s)]
         else [])
      else
        let s := set_currentReadBufferPosition 0
                   (set_currentReadBufferAmount haveRead s) in
        ((ptr_at buf 0, haveRead), s, []).

(** The loop [while (i > 0) { if (!device->getChar(nullptr)) ...; i--; }],
    run for its [n = i] iterations: [Some i] is the value of [i] at which
    [getChar] failed, [None] says the loop ran to its end. *)
Fixpoint skip_loop (n : nat) (i : Z) (d : D) : option Z * D :=
  match n with
  | O => (None, d)
  | S n' =>
      let '(ok, d') := dev_getChar d in
      if ok then skip_loop n' (i - 1) d' else (Some i, d')
  end.

Definition advanceReadPointer (amount : Z) (s : t)
  : bool * t * list Signal :=
  let s := set_totalAdvancements (totalAdvancements s + amount) s in
  let s := set_currentReadBufferPosition
             (currentReadBufferPosition s + amount) s in
  let progress :=
    if size s =? -1
    then readProgress (totalAdvancements s) (totalAdvancements s)
    else readProgress (totalAdvancements s) (size s) in
  if currentReadBufferPosition s >? currentReadBufferAmount s then
    let i := currentReadBufferPosition s - currentReadBufferAmount s in
    match skip_loop (Z.to_nat i) i (device s) with
    | (Some i, d) =>
        let s := set_device d s in
        (false, s,
         [progress; readProgress (totalAdvancements s - i) (size s)])
    | (None, d) =>
        let s := set_device d s in
        let s := set_currentReadBufferPosition 0 s in
        let s := set_currentReadBufferAmount 0 s in
        (true, s, [progress])
    end
  else (true, s, [progress]).

(** [k] calls of [getChar] that all succeed, and the device afterwards. *)
Fixpoint getChars (k : nat) (d : D) : option D :=
  match k with
  | O => Some d
  | S k' =>
      let '(ok, d') := dev_getChar d in
      if ok then getChars k' d' else None
  end.

Definition reset (s : t) : bool * t :=
  let '(reset, d) :=
    if initialPosition s =? 0 then dev_reset (device s)
    else dev_seek (initialPosition s) (device s) in
  let s := set_device d s in
  if reset then
    let s := set_eof false s in
    let s := set_totalAdvancements 0 s in
    let s := set_currentReadBuffer None s in
    let s := set_currentReadBufferAmount 0 s in
    let s := set_currentReadBufferPosition 0 s in
    (true, s)
  else (false, s).

End WithDevice.
Arguments t D : clear implicits.
End IoDeviceImpl.

(** ** The virtual interface of QNonContiguousByteDevice *)
Class NonContiguousByteDevice (S : Type) := {
  readPointer : Z -> S -> (char_ptr * Z) * S * list Signal;
  advanceReadPointer : Z -> S -> bool * S * list Signal;
  atEnd : S -> bool;
  reset : S -> bool * S;
  size : S -> Z
}.

#[export] Instance ByteArrayImpl_device : NonContiguousByteDevice ByteArrayImpl.t := {
  readPointer := ByteArrayImpl.readPointer;
  advanceReadPointer := ByteArrayImpl.advanceReadPointer;
  atEnd := ByteArrayImpl.atEnd;
  reset := ByteArrayImpl.reset;
  size := ByteArrayImpl.size
}.

#[export] Instance BufferImpl_device : NonContiguousByteDevice BufferImpl.t := {
  readPointer := BufferImpl.readPointer;
  advanceReadPointer := BufferImpl.advanceReadPointer;
  atEnd := BufferImpl.atEnd;
  reset := BufferImpl.reset;
  size := BufferImpl.size
}.

#[export] Instance RingBufferImpl_device : NonContiguousByteDevice RingBufferImpl.t := {
  readPointer := RingBufferImpl.readPointer;
  advanceReadPointer := RingBufferImpl.advanceReadPointer;
  atEnd := RingBufferImpl.atEnd;
  reset := RingBufferImpl.reset;
  size := RingBufferImpl.size
}.

#[export] Instance IoDeviceImpl_device {D : Type} `{QIODevice D}
  : NonContiguousByteDevice (IoDeviceImpl.t D) := {
  readPointer := IoDeviceImpl.readPointer;
  advanceReadPointer := IoDeviceImpl.advanceReadPointer;
  atEnd := IoDeviceImpl.atEnd;
  reset := IoDeviceImpl.reset;
  size := IoDeviceImpl.size
}.

(** A device of any of the four classes; a virtual call dispatches on the
    class of the object. *)
Inductive AnyDevice (D : Type) :=
| ByteArrayDevice (s : ByteArrayImpl.t)
| BufferDevice (s : BufferImpl.t)
| RingBufferDevice (s : RingBufferImpl.t)
| IoDevice (s : IoDeviceImpl.t D).
Arguments ByteArrayDevice {D} s.
Arguments BufferDevice {D} s.
Arguments RingBufferDevice {D} s.
Arguments IoDevice {D} s.

Section Dispatch.
Context {D : Type} `{QIODevice D}.

Definition any_readPointer (maximumLength : Z) (c : AnyDevice D)
  : (char_ptr * Z) * AnyDevice D * list Signal :=
  match c with
  | ByteArrayDevice s =>
      let '(r, s', sig) := readPointer maximumLength s in
      (r, ByteArrayDevice s', sig)
  | BufferDevice s =>
      let '(r, s', sig) := readPointer maximumLength s in
      (r, BufferDevice s', sig)
  | RingBufferDevice s =>
      let '(r, s', sig) := readPointer maximumLength s in
      (r, RingBufferDevice s', sig)
  | IoDevice s =>
      let '(r, s', sig) := readPointer maximumLength s in
      (r, IoDevice s', sig)
  end.

Definition any_advanceReadPointer (amount : Z) (c : AnyDevice D)
  : bool * AnyDevice D * list Signal :=
  match c with
  | ByteArrayDevice s =>
      let '(r, s', sig) := advanceReadPointer amount s in
      (r, ByteArrayDevice s', sig)
  | BufferDevice s =>
      let '(r, s', sig) := advanceReadPointer amount s in
      (r, BufferDevice s', sig)
  | RingBufferDevice s =>
      let '(r, s', sig) := advanceReadPointer amount s in
      (r, RingBufferDevice s', sig)
  | IoDevice s =>
      let '(r, s', sig) := advanceReadPointer amount s in
      (r, IoDevice s', sig)
  end.

Definition any_atEnd (c : AnyDevice D) : bool :=
  match c with
  | ByteArrayDevice s => atEnd s
  | BufferDevice s => atEnd s
  | RingBufferDevice s => atEnd s
  | IoDevice s => atEnd s
  end.

Definition any_reset (c : AnyDevice D) : bool * AnyDevice D :=
  match c with
  | ByteArrayDevice s => let '(r, s') := reset s in (r, ByteArrayDevice s')
  | BufferDevice s => let '(r, s') := reset s in (r, BufferDevice s')
  | RingBufferDevice s => let '(r, s') := reset s in (r, RingBufferDevice s')
  | IoDevice s => let '(r, s') := reset s in (r, IoDevice s')
  end.

Definition any_size (c : AnyDevice D) : Z :=
  match c with
  | ByteArrayDevice s => size s
  | BufferDevice s => size s
  | RingBufferDevice s => size s
  | IoDevice s => size s
  end.

#[export] Instance AnyDevice_device : NonContiguousByteDevice (AnyDevice D) := {
  readPointer := any_readPointer;
  advanceReadPointer := any_advanceReadPointer;
  atEnd := any_atEnd;
  reset := any_reset;
  size := any_size
}.
End Dispatch.

(** ** QByteDeviceWrappingIoDevice *)
Module WrappingIoDevice.
Section Wrap.
Context {S : Type} `{NonContiguousByteDevice S}.

Record t := { byteDevice : S }.

Definition ctor (bd : S) : t := {| byteDevice := bd |}.

Definition isSequential (w : t) : bool := size (byteDevice w) =? -1.

Definition atEnd (w : t) : bool := atEnd (byteDevice w).

Definition reset (w : t) : bool * t :=
  let '(r, bd) := reset (byteDevice w) in (r, {| byteDevice := bd |}).

Definition size (w : t) : Z :=
  if isSequential w then 0 else size (byteDevice w).

(** [readData data maxSize] returns its value, the caller's buffer [data]
    afterwards, the wrapper afterwards and the signals of the wrapped
    device. *)
Definition readData (data : list byte) (maxSize : Z) (w : t)
  : Z * list byte * t * list Signal :=
  let '((pointer, len), bd, sig1) := readPointer maxSize (byteDevice w) in
  if len =? -1 then (-1, data, {| byteDevice := bd |}, sig1)
  else
    let data := memcpy data pointer len in
    let '(_, bd, sig2) := advanceReadPointer len bd in
    (len, data, {| byteDevice := bd |}, sig1 ++ sig2).

Definition writeData (data : list byte) (maxSize : Z) (w : t) : Z * t :=
  (-1, w).

End Wrap.
Arguments t S : clear implicits.
End WrappingIoDevice.

(** ** An in-memory QIODevice

    Modelled from the spec: the generic streaming source is outside src/.
    This one holds a fixed content and a read position. [read] delivers the
    next bytes in order, at most [maxlen] of them, and refuses a negative
    [maxlen]; at the end of the content a random-access source returns 0
    and a sequential one -1. [getChar] skips one byte and fails at the end.
    A sequential source has no position and cannot seek. *)
Module MemDevice.

Record t := { content : QByteArray; position : Z; sequential : bool }.

Definition open (bytes : QByteArray) : t :=
  {| content := bytes; position := 0; sequential := false |}.

Definition open_sequential (bytes : QByteArray) : t :=
  {| content := bytes; position := 0; sequential := true |}.

Definition move_to (p : Z) (d : t) : t :=
  {| content := content d; position := p; sequential := sequential d |}.

Definition bytesAvailable (d : t) : Z := qsize (content d) - position d.

Definition read (maxlen : Z) (d : t) : Z * list byte * t :=
  if maxlen <? 0 then (-1, [], d)
  else if bytesAvailable d <=? 0
  then (if sequential d then -1 else 0, [], d)
  else
    let n := Z.min maxlen (bytesAvailable d) in
    (n, firstn (Z.to_nat n) (skipn (Z.to_nat (position d)) (content d)),
     move_to (position d + n) d).

Definition getChar (d : t) : bool * t :=
  if bytesAvailable d <=? 0 then (false, d)
  else (true, move_to (position d + 1) d).

Definition atEnd (d : t) : bool := bytesAvailable d <=? 0.

Definition isSequential (d : t) : bool := sequential d.

Definition size (d : t) : Z :=
  if sequential d then bytesAvailable d else qsize (content d).

Definition pos (d : t) : Z := if sequential d then 0 else position d.

Definition seek (p : Z) (d : t) : bool * t :=
  if sequential d then (false, d)
  else if (0 <=? p) && (p <=? qsize (content d)) then (true, move_to p d)
  else (false, d).

Definition reset (d : t) : bool * t := seek 0 d.

(** The states a source reaches from [open] or [open_sequential]. *)
Definition wf (d : t) : Prop := 0 <= position d <= qsize (content d).

End MemDevice.

#[export] Instance MemDevice_QIODevice : QIODevice MemDevice.t := {
  dev_read := MemDevice.read;
  dev_getChar := MemDevice.getChar;
  dev_atEnd := MemDevice.atEnd;
  dev_isSequential := MemDevice.isSequential;
  dev_size := MemDevice.size;
  dev_pos := MemDevice.pos;
  dev_reset := MemDevice.reset;
  dev_seek := MemDevice.seek
}.

(** ** Sequences of calls *)
Section Calls.
Context {S : Type} `{NonContiguousByteDevice S}.

Inductive Call :=
| CallReadPointer (maximumLength : Z)
| CallAdvance (amount : Z).

Inductive Return :=
| RetReadPointer (p : char_ptr) (len : Z)
| RetAdvance (ok : bool).

(** One executed call: what it returned, the signals it emitted and the
    device afterwards. *)
Record Step := { ret : Return; emitted : list Signal; after : S }.

Definition do_call (c : Call) (s : S) : Step :=
  match c with
  | CallReadPointer maximumLength =>
      let '((p, len), s', sig) := readPointer maximumLength s in
      {| ret := RetReadPointer p len; emitted := sig; after := s' |}
  | CallAdvance amount =>
      let '(ok, s', sig) := advanceReadPointer amount s in
      {| ret := RetAdvance ok; emitted := sig; after := s' |}
  end.

Fixpoint run (calls : list Call) (s : S) : list Step :=
  match calls with
  | [] => []
  | c :: rest => let st := do_call c s in st :: run rest (after st)
  end.

(** All signals of a run, in the order of emission. *)
Definition signals (steps : list Step) : list Signal :=
  flat_map emitted steps.

Definition final (s : S) (steps : list Step) : S :=
  last (map after steps) s.

Definition nonnegative (c : Call) : Prop :=
  match c with
  | CallReadPointer _ => True
  | CallAdvance amount => 0 <= amount
  end.

Definition succeeded (st : Step) : Prop := ret st <> RetAdvance false.

(** The caller advances only over bytes a [readPointer] call gave it:
    [granted] is the length returned by the last [readPointer], less what
    was advanced since. *)
Fixpoint within_grant (granted : Z) (calls : list Call) (s : S) : Prop :=
  match calls with
  | [] => True
  | CallReadPointer maximumLength :: rest =>
      let '((_, len), s', _) := readPointer maximumLength s in
      within_grant (Z.max 0 len) rest s'
  | CallAdvance amount :: rest =>
      0 <= amount <= granted /\
      let '(_, s', _) := advanceReadPointer amount s in
      within_grant (granted - amount) rest s'
  end.

(** Whenever the size is known, a step's signals report at most the size. *)
Definition within_size (st : Step) : Prop :=
  size (after st) <> -1 ->
  Forall (fun sig => current sig <= size (after st)) (emitted st).

(** Modelled from the spec: the consumer of a device is outside src/. It
    repeatedly borrows a view with [readPointer(-1)], takes the bytes and
    advances by their count; [atEnd] gates the loop. [fuel] bounds the
    rounds. *)
Fixpoint read_all (fuel : nat) (s : S) : list byte * S :=
  match fuel with
  | O => ([], s)
  | Datatypes.S fuel' =>
      if atEnd s then ([], s)
      else
        let '((p, len), s1, _) := readPointer (-1) s in
        if len =? -1 then read_all fuel' s1
        else
          let '(_, s2, _) := advanceReadPointer len s1 in
          let '(bytes, s3) := read_all fuel' s2 in
          (bytes_at p len ++ bytes, s3)
  end.

End Calls.
Arguments Step S : clear implicits.

(** ** Calls on a byte-array device, with [atEnd] and [reset] *)
Module ByteArrayCalls.
Import ByteArrayImpl.

Inductive Call :=
| BA_readPointer (maximumLength : Z)
| BA_advanceReadPointer (amount : Z)
| BA_atEnd
| BA_reset.

(** The device after a call. *)
Definition after_call (c : Call) (s : t) : t :=
  match c with
  | BA_readPointer maximumLength => snd (fst (readPointer maximumLength s))
  | BA_advanceReadPointer amount => snd (fst (advanceReadPointer amount s))
  | BA_atEnd => s
  | BA_reset => snd (reset s)
  end.

Fixpoint after_calls (calls : list Call) (s : t) : t :=
  match calls with
  | [] => s
  | c :: rest => after_calls rest (after_call c s)
  end.

(** A call that advances over bytes the array still has. *)
Definition in_range (c : Call) (s : t) : Prop :=
  match c with
  | BA_advanceReadPointer amount => 0 <= amount <= size s - currentPosition s
  | _ => True
  end.

(** The states reached from construction by calls that are [in_range]. *)
Inductive reachable (ba : QByteArray) : t -> Prop :=
| reach_ctor : reachable ba (ctor ba)
| reach_call s c :
    reachable ba s -> in_range c s -> reachable ba (after_call c s).

End ByteArrayCalls.

(** ** Devices between two resets *)
Section Laws.
Context {D : Type} `{QIODevice D}.

(** What a run relies on from the QIODevice: [read] returns -1 or a
    count, a random-access device moves its position by the count it
    returned and never has it past its size, and a successful [reset] or
    [seek] puts the position where it was asked to. [wf] singles out the
    states of the device in which this holds. *)
Record DeviceLaws (wf : D -> Prop) : Prop := {
  law_read : forall maxlen d n data d',
    wf d -> dev_read maxlen d = (n, data, d') ->
    wf d' /\ dev_isSequential d' = dev_isSequential d /\ -1 <= n /\
    (dev_isSequential d = false -> dev_pos d' = dev_pos d + Z.max 0 n);
  law_pos : forall d,
    wf d -> dev_isSequential d = false -> dev_pos d <= dev_size d;
  law_reset : forall d d',
    wf d -> dev_reset d = (true, d') ->
    wf d' /\ (dev_isSequential d' = false -> dev_pos d' = 0);
  law_seek : forall p d d',
    wf d -> dev_seek p d = (true, d') ->
    wf d' /\ (dev_isSequential d' = false -> dev_pos d' = p)
}.

Definition device_wf (wf : D -> Prop) (c : AnyDevice D) : Prop :=
  match c with
  | IoDevice s => wf (IoDeviceImpl.device s)
  | _ => True
  end.

(** A device as its constructor or a successful [reset] leaves it. *)
Inductive fresh (wf : D -> Prop) : AnyDevice D -> Prop :=
| fresh_ByteArray ba :
    fresh wf (ByteArrayDevice (ByteArrayImpl.ctor ba))
| fresh_Buffer b :
    fresh wf (BufferDevice (BufferImpl.ctor b))
| fresh_RingBuffer rb :
    fresh wf (RingBufferDevice (RingBufferImpl.ctor rb))
| fresh_IoDevice d :
    wf d -> fresh wf (IoDevice (IoDeviceImpl.ctor d))
| fresh_reset c c' :
    device_wf wf c -> reset c = (true, c') -> fresh wf c'.

(** The count a device reports as [current]. *)
Definition consumed (c : AnyDevice D) : Z :=
  match c with
  | ByteArrayDevice s => ByteArrayImpl.currentPosition s
  | BufferDevice s => ByteArrayImpl.currentPosition (BufferImpl.arrayImpl s)
  | RingBufferDevice s => RingBufferImpl.currentPosition s
  | IoDevice s => IoDeviceImpl.totalAdvancements s
  end.

(** What holds of a device and the caller's grant between two resets. *)
Definition budget (wf : D -> Prop) (granted : Z) (c : AnyDevice D) : Prop :=
  0 <= granted /\
  match c with
  | ByteArrayDevice s =>
      ByteArrayImpl.currentPosition s + granted <= ByteArrayImpl.size s
  | BufferDevice s =>
      ByteArrayImpl.currentPosition (BufferImpl.arrayImpl s) + granted
      <= BufferImpl.size s
  | RingBufferDevice s =>
      RingBufferImpl.currentPosition s + granted <= RingBufferImpl.size s
  | IoDevice s =>
      wf (IoDeviceImpl.device s) /\
      IoDeviceImpl.currentReadBufferPosition s + granted
      <= IoDeviceImpl.currentReadBufferAmount s /\
      (dev_isSequential (IoDeviceImpl.device s) = false ->
       IoDeviceImpl.totalAdvancements s
       + (IoDeviceImpl.currentReadBufferAmount s
          - IoDeviceImpl.currentReadBufferPosition s)
       <= dev_pos (IoDeviceImpl.device s) - IoDeviceImpl.initialPosition s)
  end.

End Laws.

(** ** The devices of the examples *)

Definition HELLOWORLD : QByteArray := list_byte_of_string "HELLOWORLD".

(** A QNonContiguousByteDeviceIoDeviceImpl over a random-access device that
    holds HELLOWORLD. *)
Definition hello_device : IoDeviceImpl.t MemDevice.t :=
  IoDeviceImpl.ctor (MemDevice.open HELLOWORLD).

(** The same with a read buffer of 4 bytes instead of 16 KiB. *)
Definition hello_device4 : IoDeviceImpl.t MemDevice.t :=
  IoDeviceImpl.set_currentReadBufferSize 4 hello_device.

(** The same over a sequential device. *)
Definition hello_pipe : IoDeviceImpl.t MemDevice.t :=
  IoDeviceImpl.ctor (MemDevice.open_sequential HELLOWORLD).

(** What the caller sees of a step: the length and the bytes a
    [readPointer] gave access to, or the result of an advancement. *)
Inductive Observed :=
| Borrowed (len : Z) (bytes : list byte)
| Advanced (ok : bool).

Definition observe {S : Type} (st : Step S) : Observed :=
  match ret st with
  | RetReadPointer p len => Borrowed len (bytes_at p len)
  | RetAdvance ok => Advanced ok
  end.

(** State after a list of calls, for the examples. *)
Definition after_run {S : Type} `{NonContiguousByteDevice S}
  (calls : list Call) (s : S) : S :=
  final s (run calls s).

(** ** Computations within qint64

    The members, arguments and results of the source are [qint64] values,
    and the model computes them in [Z]. A call agrees with its model when
    every sum and difference it computes is a [qint64] value; the
    predicates below say so for each class, and the theorems about sums and
    differences are stated for the calls that satisfy them. *)

Definition qint64 (z : Z) : Prop :=
  -9223372036854775808 <= z <= 9223372036854775807.

Definition signals_in_qint64 (signals : list Signal) : Prop :=
  Forall (fun sig => qint64 (current sig) /\ qint64 (total sig)) signals.

(** A call on a byte-array device: [size() - currentPosition] in
    [readPointer], [currentPosition + amount] in [advanceReadPointer]. *)
Definition ByteArrayImpl_computes (call : Call) (s : ByteArrayImpl.t)
  : Prop :=
  qint64 (ByteArrayImpl.currentPosition s) /\ qint64 (ByteArrayImpl.size s) /\
  match call with
  | CallReadPointer maximumLength =>
      qint64 maximumLength /\
      (ByteArrayImpl.atEnd s = false ->
       qint64 (ByteArrayImpl.size s - ByteArrayImpl.currentPosition s))
  | CallAdvance amount =>
      qint64 amount /\ qint64 (ByteArrayImpl.currentPosition s + amount)
  end.

(** A call on a ring-buffer device: the lengths the ring buffer computes
    at the position in [readPointer] are at most [size() -
    currentPosition]; [currentPosition + amount] in
    [advanceReadPointer]. *)
Definition RingBufferImpl_computes (call : Call) (s : RingBufferImpl.t)
  : Prop :=
  qint64 (RingBufferImpl.currentPosition s) /\
  qint64 (RingBufferImpl.size s) /\
  match call with
  | CallReadPointer maximumLength =>
      qint64 maximumLength /\
      (RingBufferImpl.atEnd s = false ->
       qint64 (RingBufferImpl.size s - RingBufferImpl.currentPosition s))
  | CallAdvance amount =>
      qint64 amount /\ qint64 (RingBufferImpl.currentPosition s + amount)
  end.

Section Ranges.
Context {D : Type} `{QIODevice D}.

Definition IoDeviceImpl_members_in_qint64 (s : IoDeviceImpl.t D) : Prop :=
  qint64 (IoDeviceImpl.currentReadBufferSize s) /\
  qint64 (IoDeviceImpl.currentReadBufferAmount s) /\
  qint64 (IoDeviceImpl.currentReadBufferPosition s) /\
  qint64 (IoDeviceImpl.totalAdvancements s) /\
  qint64 (IoDeviceImpl.initialPosition s).

(** A call on a device over a QIODevice. [readPointer] computes
    [currentReadBufferAmount - currentReadBufferPosition];
    [advanceReadPointer] computes the two sums with [amount] and, when it
    goes past the buffer, the count of bytes to skip; the values of the
    signals are [totalAdvancements], [totalAdvancements - i] and
    [device->size() - initialPosition]. *)
Definition IoDeviceImpl_computes (call : Call) (s : IoDeviceImpl.t D)
  : Prop :=
  IoDeviceImpl_members_in_qint64 s /\
  match call with
  | CallReadPointer maximumLength =>
      qint64 maximumLength /\
      (IoDeviceImpl.eof s = false ->
       qint64 (IoDeviceImpl.currentReadBufferAmount s
               - IoDeviceImpl.currentReadBufferPosition s)) /\
      signals_in_qint64 (snd (IoDeviceImpl.readPointer maximumLength s))
  | CallAdvance amount =>
      qint64 amount /\
      qint64 (IoDeviceImpl.totalAdvancements s + amount) /\
      qint64 (IoDeviceImpl.currentReadBufferPosition s + amount) /\
      (IoDeviceImpl.currentReadBufferPosition s + amount
       > IoDeviceImpl.currentReadBufferAmount s ->
       qint64 (IoDeviceImpl.currentReadBufferPosition s + amount
               - IoDeviceImpl.currentReadBufferAmount s)) /\
      signals_in_qint64 (snd (IoDeviceImpl.advanceReadPointer amount s))
  end.

Definition computes_in_qint64 (call : Call) (c : AnyDevice D) : Prop :=
  match c with
  | ByteArrayDevice s => ByteArrayImpl_computes call s
  | BufferDevice s => ByteArrayImpl_computes call (BufferImpl.arrayImpl s)
  | RingBufferDevice s => RingBufferImpl_computes call s
  | IoDevice s => IoDeviceImpl_computes call s
  end.

(** Every call of a run computes within [qint64]. *)
Fixpoint run_computes (calls : list Call) (c : AnyDevice D) : Prop :=
  match calls with
  | [] => True
  | call :: rest =>
      computes_in_qint64 call c /\ run_computes rest (after (do_call call c))
  end.

(** No advancement of the run goes past the end of the data: while the
    size is known, the count advanced to stays within it. *)
Fixpoint within_data (calls : list Call) (c : AnyDevice D) : Prop :=
  match calls with
  | [] => True
  | call :: rest =>
      match call with
      | CallReadPointer _ => True
      | CallAdvance amount => size c <> -1 -> consumed c + amount <= size c
      end /\
      within_data rest (after (do_call call c))
  end.

End Ranges.

(** ** QNonContiguousByteDeviceFactory *)
Module Factory.

(** What [create] is given as its QIODevice pointer: a QBuffer, which
    [qobject_cast] recognises, or another QIODevice. *)
Inductive QIODevicePtr (D : Type) :=
| is_QBuffer (buffer : BufferImpl.QBuffer)
| is_other (device : D).
Arguments is_QBuffer {D} buffer.
Arguments is_other {D} device.

(** [create] from a QIODevice pointer; [createShared] builds the same
    object behind a shared pointer. *)
Definition create {D : Type} `{QIODevice D} (device : QIODevicePtr D)
  : AnyDevice D :=
  match device with
  | is_QBuffer buffer => BufferDevice (BufferImpl.ctor buffer)
  | is_other device => IoDevice (IoDeviceImpl.ctor device)
  end.

(** [create] from a shared pointer to a QRingBuffer. *)
Definition create_ringBuffer {D : Type}
  (ringBuffer : RingBufferImpl.QRingBuffer) : AnyDevice D :=
  RingBufferDevice (RingBufferImpl.ctor ringBuffer).

(** [create] from a QByteArray pointer. *)
Definition create_byteArray {D : Type} (byteArray : QByteArray)
  : AnyDevice D :=
  ByteArrayDevice (ByteArrayImpl.ctor byteArray).

Definition wrap {S : Type} (byteDevice : S) : WrappingIoDevice.t S :=
  WrappingIoDevice.ctor byteDevice.

End Factory.

(** ** Consumers that ask for a bounded length *)
Section Consumers.
Context {S : Type} `{NonContiguousByteDevice S}.

(** Modelled from the spec: the consumer of [read_all], asking for at most
    [maximumLength] bytes in each round. *)
Fixpoint read_all_by (maximumLength : Z) (fuel : nat) (s : S)
  : list byte * S :=
  match fuel with
  | O => ([], s)
  | Datatypes.S fuel' =>
      if atEnd s then ([], s)
      else
        let '((p, len), s1, _) := readPointer maximumLength s in
        if len =? -1 then read_all_by maximumLength fuel' s1
        else
          let '(_, s2, _) := advanceReadPointer len s1 in
          let '(bytes, s3) := read_all_by maximumLength fuel' s2 in
          (bytes_at p len ++ bytes, s3)
  end.

End Consumers.

(** The sum of the amounts a sequence of calls advances by. *)
Definition advanced (calls : list Call) : Z :=
  fold_right (fun c n => match c with
                         | CallReadPointer _ => n
                         | CallAdvance amount => amount + n
                         end) 0 calls.

(** A call that asks for any length or for a non-negative one. *)
Definition sensible (c : Call) : Prop :=
  match c with
  | CallReadPointer maximumLength => -1 <= maximumLength
  | CallAdvance _ => True
  end.

(** [len] bytes of [bytes] from the offset [from]. *)
Definition slice (bytes : QByteArray) (from len : Z) : list byte :=
  firstn (Z.to_nat len) (skipn (Z.to_nat from) bytes).

(** ** A device over the in-memory QIODevice *)

(** The offset in the content up to which the caller has advanced. *)
Definition stream_offset (s : IoDeviceImpl.t MemDevice.t) : Z :=
  IoDeviceImpl.initialPosition s + IoDeviceImpl.totalAdvancements s.

(** The device is in step with a random-access source holding [content]:
    the source is ahead of the caller by the bytes that wait in the read
    buffer, and the buffer holds the bytes the source gave last. *)
Record streaming (content : QByteArray) (s : IoDeviceImpl.t MemDevice.t)
  : Prop := {
  st_content : MemDevice.content (IoDeviceImpl.device s) = content;
  st_random : MemDevice.sequential (IoDeviceImpl.device s) = false;
  st_capacity : 0 < IoDeviceImpl.currentReadBufferSize s;
  st_initial : 0 <= IoDeviceImpl.initialPosition s;
  st_window : 0 <= IoDeviceImpl.currentReadBufferPosition s
              <= IoDeviceImpl.currentReadBufferAmount s;
  st_total : IoDeviceImpl.currentReadBufferPosition s
             <= IoDeviceImpl.totalAdvancements s;
  st_ahead : stream_offset s
             + (IoDeviceImpl.currentReadBufferAmount s
                - IoDeviceImpl.currentReadBufferPosition s)
             = MemDevice.position (IoDeviceImpl.device s);
  st_source : MemDevice.position (IoDeviceImpl.device s) <= qsize content;
  st_buffer : IoDeviceImpl.currentReadBufferPosition s
              < IoDeviceImpl.currentReadBufferAmount s ->
              exists buf,
                IoDeviceImpl.currentReadBuffer s = Some buf /\
                firstn (Z.to_nat (IoDeviceImpl.currentReadBufferAmount s)) buf
                = slice content
                    (MemDevice.position (IoDeviceImpl.device s)
                     - IoDeviceImpl.currentReadBufferAmount s)
                    (IoDeviceImpl.currentReadBufferAmount s);
  st_eof : IoDeviceImpl.eof s = true -> stream_offset s = qsize content
}.

(** Nothing waits in the read buffer. *)
Definition drained {D : Type} (s : IoDeviceImpl.t D) : Prop :=
  IoDeviceImpl.currentReadBufferAmount s
  <= IoDeviceImpl.currentReadBufferPosition s.

(** What a step of a run over the in-memory source shows: an advancement
    succeeds, and a [readPointer] gives -1 or the bytes of the content at
    the offset the caller has advanced to. *)
Definition in_step (content : QByteArray)
  (st : Step (IoDeviceImpl.t MemDevice.t)) : Prop :=
  match ret st with
  | RetAdvance ok => ok = true
  | RetReadPointer p len =>
      (len = -1 /\ p = nullptr) \/
      (0 <= len /\
       bytes_at p len = slice content (stream_offset (after st)) len /\
       stream_offset (after st) + len <= qsize content)
  end.

(** * Properties *)

(** ** Bytes and pointers *)

Lemma qsize_nonneg (ba : QByteArray) : 0 <= qsize ba.
Proof. unfold qsize. lia. Qed.

(** ** The byte-array device *)

Lemma ByteArrayImpl_atEnd_iff (s : ByteArrayImpl.t) :
  ByteArrayImpl.atEnd s = true <->
  ByteArrayImpl.currentPosition s >= ByteArrayImpl.size s.
Proof.
  unfold ByteArrayImpl.atEnd. rewrite Z.geb_le. lia.
Qed.

Lemma ByteArrayImpl_readPointer_state (maximumLength : Z) (s : ByteArrayImpl.t) :
  snd (fst (ByteArrayImpl.readPointer maximumLength s)) = s.
Proof.
  unfold ByteArrayImpl.readPointer.
  destruct (ByteArrayImpl.atEnd s); reflexivity.
Qed.

(** C8. For the byte-array device, on calls that compute within qint64:
    when not at the end, [readPointer] returns the array's data pointer plus
    the current position, with the length
    [min(maximumLength, size - position)], or [size - position] when
    [maximumLength] is -1; [atEnd] is [position >= size];
    [advanceReadPointer] adds the amount to the position and returns true;
    [reset] puts the position at 0 and returns true. *)
Theorem C8_ByteArrayImpl_operations
  (s : ByteArrayImpl.t) (maximumLength amount : Z) :
  (ByteArrayImpl_computes (CallReadPointer maximumLength) s ->
   ByteArrayImpl.atEnd s = false ->
   ByteArrayImpl.readPointer maximumLength s =
   ((ptr_at (ByteArrayImpl.byteArray s) (ByteArrayImpl.currentPosition s),
     if maximumLength =? -1
     then ByteArrayImpl.size s - ByteArrayImpl.currentPosition s
     else Z.min maximumLength
            (ByteArrayImpl.size s - ByteArrayImpl.currentPosition s)),
    s, []))
  /\ (ByteArrayImpl.atEnd s = true <->
      ByteArrayImpl.currentPosition s >= ByteArrayImpl.size s)
  /\ (ByteArrayImpl_computes (CallAdvance amount) s ->
      fst (fst (ByteArrayImpl.advanceReadPointer amount s)) = true /\
      ByteArrayImpl.currentPosition
        (snd (fst (ByteArrayImpl.advanceReadPointer amount s)))
      = ByteArrayImpl.currentPosition s + amount /\
      qint64 (ByteArrayImpl.currentPosition
                (snd (fst (ByteArrayImpl.advanceReadPointer amount s)))) /\
      ByteArrayImpl.byteArray
        (snd (fst (ByteArrayImpl.advanceReadPointer amount s)))
      = ByteArrayImpl.byteArray s)
  /\ (fst (ByteArrayImpl.reset s) = true /\
      ByteArrayImpl.currentPosition (snd (ByteArrayImpl.reset s)) = 0 /\
      ByteArrayImpl.byteArray (snd (ByteArrayImpl.reset s))
      = ByteArrayImpl.byteArray s).
Proof.
  split; [| split; [| split]].
  - intros _ Hend. unfold ByteArrayImpl.readPointer. rewrite Hend.
    destruct (maximumLength =? -1); reflexivity.
  - apply ByteArrayImpl_atEnd_iff.
  - intros (_ & _ & _ & Hsum). cbn. auto.
  - cbn. auto.
Qed.

Lemma C8_ByteArrayImpl_operations_witness :
  let s := ByteArrayImpl.Build_t HELLOWORLD 4 in
  (ByteArrayImpl_computes (CallReadPointer 3) s /\
   ByteArrayImpl.atEnd s = false /\
   ByteArrayImpl.readPointer 3 s = ((ptr_at HELLOWORLD 4, 3), s, []))
  /\
  (ByteArrayImpl_computes (CallAdvance 6) s /\
   ByteArrayImpl.currentPosition
     (snd (fst (ByteArrayImpl.advanceReadPointer 6 s))) = 10).
Proof.
  intros s.
  assert (Hread : ByteArrayImpl_computes (CallReadPointer 3) s).
  { unfold ByteArrayImpl_computes, qint64. cbn. repeat split; intros; lia. }
  assert (Hadv : ByteArrayImpl_computes (CallAdvance 6) s).
  { unfold ByteArrayImpl_computes, qint64. cbn. repeat split; lia. }
  split.
  - split; [exact Hread |]. split; [reflexivity |].
    exact (proj1 (C8_ByteArrayImpl_operations s 3 6) Hread eq_refl).
  - split; [exact Hadv |].
    exact (proj1 (proj2 (proj1 (proj2 (proj2
             (C8_ByteArrayImpl_operations s 3 6))) Hadv))).
Defined.

(** ** The device over a QIODevice *)

(** Projections of updated records. *)
Ltac fields :=
  cbn [IoDeviceImpl.device IoDeviceImpl.currentReadBuffer
       IoDeviceImpl.currentReadBufferSize IoDeviceImpl.currentReadBufferAmount
       IoDeviceImpl.currentReadBufferPosition IoDeviceImpl.totalAdvancements
       IoDeviceImpl.eof IoDeviceImpl.initialPosition
       IoDeviceImpl.set_device IoDeviceImpl.set_currentReadBuffer
       IoDeviceImpl.set_currentReadBufferSize
       IoDeviceImpl.set_currentReadBufferAmount
       IoDeviceImpl.set_currentReadBufferPosition
       IoDeviceImpl.set_totalAdvancements IoDeviceImpl.set_eof] in *.

(** Ranges of concrete values. *)
Ltac in_qint64 :=
  repeat match goal with
         | |- _ /\ _ => split
         | |- _ -> _ => intro
         | |- True => exact I
         | |- qint64 ?z =>
             let z' := eval vm_compute in z in
             change (qint64 z'); unfold qint64; lia
         | |- signals_in_qint64 ?l =>
             let l' := eval vm_compute in l in
             change (signals_in_qint64 l'); unfold signals_in_qint64
         | |- Forall _ (_ :: _) => apply Forall_cons
         | |- Forall _ [] => apply Forall_nil
         | |- run_computes [] _ => exact I
         | |- run_computes (?call :: ?rest) ?c =>
             let c1 := eval vm_compute in c in
             let c2 := eval vm_compute in (after (do_call call c1)) in
             change (computes_in_qint64 call c1 /\ run_computes rest c2)
         | |- computes_in_qint64 _ _ =>
             unfold computes_in_qint64; cbv beta iota
         | |- IoDeviceImpl_computes _ _ =>
             unfold IoDeviceImpl_computes, IoDeviceImpl_members_in_qint64;
             cbv beta iota
         | |- ByteArrayImpl_computes _ _ =>
             unfold ByteArrayImpl_computes; cbv beta iota
         | |- RingBufferImpl_computes _ _ =>
             unfold RingBufferImpl_computes; cbv beta iota
         end.

Section IoDeviceProperties.
Context {D : Type} `{QIODevice D}.
Import IoDeviceImpl.

Lemma skip_loop_completes (n : nat) :
  forall (i : Z) (d d' : D),
    getChars n d = Some d' -> skip_loop n i d = (None, d').
Proof.
  induction n as [| n IH]; intros i d d' Hk; cbn in *.
  - congruence.
  - destruct (dev_getChar d) as [ok d1]. destruct ok; [| discriminate].
    now apply IH.
Qed.

Lemma skip_loop_stops (k : nat) :
  forall (n : nat) (i : Z) (d dk : D),
    (k < n)%nat -> getChars k d = Some dk ->
    fst (dev_getChar dk) = false ->
    skip_loop n i d = (Some (i - Z.of_nat k), snd (dev_getChar dk)).
Proof.
  induction k as [| k IH]; intros n i d dk Hlt Hk Hfail.
  - cbn in Hk. injection Hk as ->.
    destruct n as [| n]; [lia |]. cbn.
    destruct (dev_getChar dk) as [ok d1]. cbn in *. subst ok.
    f_equal. f_equal. lia.
  - destruct n as [| n]; [lia |]. cbn in *.
    destruct (dev_getChar d) as [ok d1]. destruct ok; [| discriminate].
    rewrite (IH n (i - 1) d1 dk); [| lia | assumption | assumption].
    f_equal. f_equal. lia.
Qed.

(** The whole effect of an advancement that runs out of device. *)
Lemma advanceReadPointer_fails (s : t D) (amount : Z) (k : nat) (dk : D) :
  let over := currentReadBufferPosition s + amount
              - currentReadBufferAmount s in
  (k < Z.to_nat over)%nat ->
  getChars k (device s) = Some dk ->
  fst (dev_getChar dk) = false ->
  let s1 := set_currentReadBufferPosition
              (currentReadBufferPosition s + amount)
              (set_totalAdvancements (totalAdvancements s + amount) s) in
  let s' := set_device (snd (dev_getChar dk)) s1 in
  advanceReadPointer amount s =
  (false, s',
   [ (if size s1 =? -1
      then readProgress (totalAdvancements s1) (totalAdvancements s1)
      else readProgress (totalAdvancements s1) (size s1));
     readProgress (totalAdvancements s + amount - (over - Z.of_nat k))
                  (size s') ]).
Proof.
  intros over Hlt Hk Hfail s1 s'.
  assert (Hover : (currentReadBufferPosition s + amount
                   >? currentReadBufferAmount s) = true).
  { apply Z.gtb_lt. subst over. lia. }
  unfold advanceReadPointer. fields. rewrite Hover.
  change (currentReadBufferPosition s + amount - currentReadBufferAmount s)
    with over.
  rewrite (skip_loop_stops k (Z.to_nat over) over (device s) dk Hlt Hk Hfail).
  reflexivity.
Qed.

Lemma advanceReadPointer_skips (s : t D) (amount : Z) (d' : D) :
  let over := currentReadBufferPosition s + amount
              - currentReadBufferAmount s in
  0 < over ->
  getChars (Z.to_nat over) (device s) = Some d' ->
  let s1 := set_currentReadBufferPosition
              (currentReadBufferPosition s + amount)
              (set_totalAdvancements (totalAdvancements s + amount) s) in
  advanceReadPointer amount s =
  (true,
   set_currentReadBufferAmount 0
     (set_currentReadBufferPosition 0 (set_device d' s1)),
   [ if size s1 =? -1
     then readProgress (totalAdvancements s1) (totalAdvancements s1)
     else readProgress (totalAdvancements s1) (size s1) ]).
Proof.
  intros over Hpos Hk s1.
  assert (Hover : (currentReadBufferPosition s + amount
                   >? currentReadBufferAmount s) = true).
  { apply Z.gtb_lt. subst over. lia. }
  unfold advanceReadPointer. fields. rewrite Hover.
  change (currentReadBufferPosition s + amount - currentReadBufferAmount s)
    with over.
  rewrite (skip_loop_completes _ over _ _ Hk).
  reflexivity.
Qed.


(** C10. When [advanceReadPointer], computing within qint64, fails
    because the device gave out after [k] of the [over] bytes to skip,
    nothing is rolled back: the
    total keeps the whole amount, the position stays past the amount the
    buffer holds, [eof] is as it was, and the total is larger than the
    count the last signal reported as consumed. *)
Theorem C10_failed_advance_keeps_accounting
  (s : t D) (amount : Z) (k : nat) (dk : D) :
  let over := currentReadBufferPosition s + amount
              - currentReadBufferAmount s in
  let r := advanceReadPointer amount s in
  let s' := snd (fst r) in
  IoDeviceImpl_computes (CallAdvance amount) s ->
  (k < Z.to_nat over)%nat ->
  getChars k (device s) = Some dk ->
  fst (dev_getChar dk) = false ->
  fst (fst r) = false /\
  totalAdvancements s' = totalAdvancements s + amount /\
  currentReadBufferPosition s' = currentReadBufferPosition s + amount /\
  currentReadBufferAmount s' = currentReadBufferAmount s /\
  currentReadBufferPosition s' > currentReadBufferAmount s' /\
  eof s' = eof s /\
  current (last (snd r) (readProgress 0 0)) < totalAdvancements s'.
Proof.
  intros over r s' _ Hlt Hk Hfail. subst s' r.
  rewrite (advanceReadPointer_fails s amount k dk Hlt Hk Hfail).
  cbn [fst snd last current]. fields.
  repeat split; try reflexivity; subst over; lia.
Qed.

(** C5. When [readPointer] has to read from the device and the read gives
    nothing (it returns -1, or it returns 0 while the device is at its
    end and not sequential), [eof] is set and [(nullptr, -1)] is
    returned; a signal is emitted exactly when [size()] is -1, and it is
    [readProgress(totalAdvancements, totalAdvancements)], so the total it
    reports is its current. *)
Theorem C5_readPointer_at_end
  (s : t D) (maximumLength haveRead : Z) (data : list byte) (d : D) :
  let r := readPointer maximumLength s in
  let s' := snd (fst r) in
  eof s = false ->
  currentReadBufferAmount s - currentReadBufferPosition s <= 0 ->
  dev_read
    (Z.min (if maximumLength =? -1 then currentReadBufferSize s
            else maximumLength)
           (currentReadBufferSize s))
    (device s) = (haveRead, data, d) ->
  haveRead = -1 \/
  (haveRead = 0 /\ dev_atEnd d = true /\ dev_isSequential d = false) ->
  fst (fst r) = (nullptr, -1) /\
  eof s' = true /\
  totalAdvancements s' = totalAdvancements s /\
  (size s' = -1 ->
   snd r = [readProgress (totalAdvancements s) (totalAdvancements s)]) /\
  (size s' <> -1 -> snd r = []).
Proof.
  intros r s' Heof Hempty Hread Hnothing. subst s' r.
  unfold readPointer. rewrite Heof. fields.
  assert (Hgt : (currentReadBufferAmount s - currentReadBufferPosition s >? 0)
                = false).
  { rewrite Z.gtb_ltb. apply Z.ltb_ge. lia. }
  rewrite Hgt, Hread.
  assert (Hcond : (haveRead =? -1)
                  || ((haveRead =? 0) && dev_atEnd d
                      && negb (dev_isSequential d)) = true).
  { destruct Hnothing as [-> | (-> & -> & ->)]; reflexivity. }
  rewrite Hcond. cbn [fst snd]. fields.
  repeat split; try reflexivity.
  - intros Hsize. apply Z.eqb_eq in Hsize. now rewrite Hsize.
  - intros Hsize. apply Z.eqb_neq in Hsize. now rewrite Hsize.
Qed.

(** C6. [reset] asks the device to go back to the initial position
    ([reset()] when that is 0, [seek(initialPosition)] otherwise). When
    the device does, [reset] returns true, [eof] is false, the total is
    0, the read buffer is gone (the next [readPointer] allocates one) and
    amount and position are 0. When it does not, [reset] returns false and
    every member keeps its value. *)
Theorem C6_reset (s : t D) :
  let asked := if initialPosition s =? 0 then dev_reset (device s)
               else dev_seek (initialPosition s) (device s) in
  let s' := snd (reset s) in
  (fst asked = true ->
   fst (reset s) = true /\
   eof s' = false /\
   totalAdvancements s' = 0 /\
   currentReadBuffer s' = None /\
   currentReadBufferAmount s' = 0 /\
   currentReadBufferPosition s' = 0 /\
   currentReadBufferSize s' = currentReadBufferSize s /\
   initialPosition s' = initialPosition s /\
   forall maximumLength,
     currentReadBuffer (snd (fst (readPointer maximumLength s'))) <> None)
  /\
  (fst asked = false ->
   fst (reset s) = false /\
   s' = set_device (snd asked) s /\
   eof s' = eof s /\
   totalAdvancements s' = totalAdvancements s /\
   currentReadBuffer s' = currentReadBuffer s /\
   currentReadBufferAmount s' = currentReadBufferAmount s /\
   currentReadBufferPosition s' = currentReadBufferPosition s /\
   currentReadBufferSize s' = currentReadBufferSize s /\
   initialPosition s' = initialPosition s).
Proof.
  intros asked s'. subst s'. unfold reset. fold asked.
  destruct asked as [ok d]. cbn [fst snd].
  split; intros ->; cbn [fst snd]; fields; repeat split; try reflexivity.
  intros maximumLength. unfold readPointer. fields.
  destruct (dev_read _ _) as [[haveRead data] d'].
  destruct (_ || _); cbn [fst snd]; fields; discriminate.
Qed.

End IoDeviceProperties.

(** ** The device over a QIODevice, on HELLOWORLD *)


Lemma C10_failed_advance_keeps_accounting_witness :
  let s' := snd (fst (IoDeviceImpl.advanceReadPointer 20 hello_device4)) in
  IoDeviceImpl_computes (CallAdvance 20) hello_device4 /\
  fst (fst (IoDeviceImpl.advanceReadPointer 20 hello_device4)) = false /\
  IoDeviceImpl.totalAdvancements s' = 20 /\
  IoDeviceImpl.currentReadBufferPosition s' = 20 /\
  IoDeviceImpl.currentReadBufferAmount s' = 0 /\
  IoDeviceImpl.currentReadBufferPosition s'
  > IoDeviceImpl.currentReadBufferAmount s' /\
  IoDeviceImpl.eof s' = false /\
  current (last (snd (IoDeviceImpl.advanceReadPointer 20 hello_device4))
             (readProgress 0 0))
  < IoDeviceImpl.totalAdvancements s'.
Proof.
  intros s'.
  assert (H20 : IoDeviceImpl_computes (CallAdvance 20) hello_device4)
    by in_qint64.
  split; [exact H20 |].
  exact (C10_failed_advance_keeps_accounting hello_device4 20 10%nat
           (MemDevice.move_to 10 (MemDevice.open HELLOWORLD)) H20
           ltac:(vm_compute; lia) eq_refl eq_refl).
Defined.

Lemma C5_readPointer_at_end_witness :
  let s := after_run [CallReadPointer (-1); CallAdvance 10] hello_pipe in
  let r := IoDeviceImpl.readPointer (-1) s in
  IoDeviceImpl.size (snd (fst r)) = -1 /\
  fst (fst r) = (nullptr, -1) /\
  IoDeviceImpl.eof (snd (fst r)) = true /\
  snd r = [readProgress 10 10].
Proof.
  intros s r.
  destruct (C5_readPointer_at_end s (-1) (-1) []
              (MemDevice.move_to 10 (MemDevice.open_sequential HELLOWORLD)))
    as (Hret & Heof & _ & Hsig & _).
  - reflexivity.
  - vm_compute. discriminate.
  - reflexivity.
  - left. reflexivity.
  - split; [reflexivity |]. split; [exact Hret |]. split; [exact Heof |].
    exact (Hsig eq_refl).
Defined.

Lemma C6_reset_witness :
  let s := after_run [CallReadPointer (-1); CallAdvance 4] hello_device4 in
  let p := after_run [CallReadPointer (-1); CallAdvance 4] hello_pipe in
  (fst (IoDeviceImpl.reset s) = true /\
   IoDeviceImpl.eof (snd (IoDeviceImpl.reset s)) = false /\
   IoDeviceImpl.totalAdvancements (snd (IoDeviceImpl.reset s)) = 0 /\
   IoDeviceImpl.currentReadBuffer (snd (IoDeviceImpl.reset s)) = None)
  /\
  (fst (IoDeviceImpl.reset p) = false /\ snd (IoDeviceImpl.reset p) = p).
Proof.
  intros s p. split.
  - destruct (proj1 (C6_reset s)) as (H1 & H2 & H3 & H4 & _);
      [reflexivity | auto].
  - destruct (proj2 (C6_reset p)) as (H1 & H2 & _); [reflexivity |].
    split; [exact H1 |]. rewrite H2. reflexivity.
Defined.

(** A [readPointer] that finds bytes in the buffer hands out all of them:
    it does not read from the device and does not look at
    [maximumLength]. *)
Lemma IoDeviceImpl_readPointer_buffered
  {D : Type} `{QIODevice D} (s : IoDeviceImpl.t D) (maximumLength : Z)
  (buf : QByteArray) :
  IoDeviceImpl.eof s = false ->
  IoDeviceImpl.currentReadBuffer s = Some buf ->
  IoDeviceImpl.currentReadBufferAmount s
  > IoDeviceImpl.currentReadBufferPosition s ->
  IoDeviceImpl.readPointer maximumLength s =
  ((ptr_at buf (IoDeviceImpl.currentReadBufferPosition s),
    IoDeviceImpl.currentReadBufferAmount s
    - IoDeviceImpl.currentReadBufferPosition s),
   s, []).
Proof.
  intros Heof Hbuf Hgt. unfold IoDeviceImpl.readPointer.
  rewrite Heof, Hbuf. fields.
  assert (Hb : (IoDeviceImpl.currentReadBufferAmount s
                - IoDeviceImpl.currentReadBufferPosition s >? 0) = true).
  { apply Z.gtb_lt. lia. }
  rewrite Hb. f_equal. f_equal.
  destruct s; cbn in *. subst. reflexivity.
Qed.

(** C1. On a device over HELLOWORLD, [readPointer(-1)] fills the buffer
    with the 10 bytes, and a following [readPointer(3)] returns all 10
    buffered bytes without a read on the device: a length of 10, where
    [maximumLength] was 3. *)
Theorem C1_readPointer_buffered_exceeds_maximumLength :
  let steps := run [CallReadPointer (-1); CallReadPointer 3] hello_device in
  map observe steps = [Borrowed 10 HELLOWORLD; Borrowed 10 HELLOWORLD] /\
  map (fun st => IoDeviceImpl.device (after st)) steps
  = [MemDevice.move_to 10 (MemDevice.open HELLOWORLD);
     MemDevice.move_to 10 (MemDevice.open HELLOWORLD)] /\
  10 > 3.
Proof.
  vm_compute. repeat split; reflexivity.
Qed.

(** C3, as the scenario states it: the read after [advance(2)] would give
    the two bytes LD. It gives OR, the rest of the buffered OWOR. *)
Lemma C3_third_read_is_not_LD :
  map observe
    (run [CallReadPointer (-1); CallAdvance 4; CallReadPointer (-1);
          CallAdvance 2; CallReadPointer (-1)] hello_device4)
  <> [Borrowed 4 (list_byte_of_string "HELL"); Advanced true;
      Borrowed 4 (list_byte_of_string "OWOR"); Advanced true;
      Borrowed 2 (list_byte_of_string "LD")].
Proof.
  vm_compute. discriminate.
Qed.

(** C3. HELLOWORLD through a device with a read buffer of 4 bytes: the
    first [readPointer(-1)] gives 4 bytes, HELL; after [advance(4)] the
    next gives 4 bytes, OWOR; after [advance(2)] the next gives the 2
    bytes left in the buffer, OR; after another [advance(2)] the next
    gives the 2 bytes LD, and after [advance(2)] [readPointer(-1)] gives
    -1 and [atEnd()] is true. [reset()] then returns true and the read and
    advance loop gives HELLOWORLD again. *)
Theorem C3_HELLOWORLD_scenario :
  let calls := [CallReadPointer (-1); CallAdvance 4; CallReadPointer (-1);
                CallAdvance 2; CallReadPointer (-1); CallAdvance 2;
                CallReadPointer (-1); CallAdvance 2; CallReadPointer (-1)] in
  let done := after_run calls hello_device4 in
  map observe (run calls hello_device4)
  = [Borrowed 4 (list_byte_of_string "HELL"); Advanced true;
     Borrowed 4 (list_byte_of_string "OWOR"); Advanced true;
     Borrowed 2 (list_byte_of_string "OR"); Advanced true;
     Borrowed 2 (list_byte_of_string "LD"); Advanced true;
     Borrowed (-1) []] /\
  atEnd done = true /\
  fst (reset done) = true /\
  fst (read_all 4 (snd (reset done))) = HELLOWORLD /\
  atEnd (snd (read_all 4 (snd (reset done)))) = true.
Proof.
  vm_compute. repeat split; reflexivity.
Qed.

(** ** The wrapping QIODevice *)
Section WrappingProperties.
Context {S : Type} `{NonContiguousByteDevice S}.

(** C9. [readData] borrows a pointer with the wrapped device's
    [readPointer]; when the length is -1 it returns -1 and copies
    nothing; otherwise it copies that many bytes from the pointer to the
    caller's buffer, advances the wrapped device by exactly that length
    and returns it. The wrapper is sequential exactly when the wrapped
    device's size is -1, and [writeData] returns -1. *)
Theorem C9_wrapping_device
  (w : WrappingIoDevice.t S) (data : list byte) (maxSize : Z) :
  let borrowed := readPointer maxSize (WrappingIoDevice.byteDevice w) in
  let p := fst (fst (fst borrowed)) in
  let len := snd (fst (fst borrowed)) in
  let advanced := advanceReadPointer len (snd (fst borrowed)) in
  (len = -1 ->
   WrappingIoDevice.readData data maxSize w
   = (-1, data, WrappingIoDevice.ctor (snd (fst borrowed)), snd borrowed))
  /\
  (len <> -1 ->
   WrappingIoDevice.readData data maxSize w
   = (len, memcpy data p len, WrappingIoDevice.ctor (snd (fst advanced)),
      snd borrowed ++ snd advanced))
  /\
  (WrappingIoDevice.isSequential w = true <->
   size (WrappingIoDevice.byteDevice w) = -1)
  /\
  fst (WrappingIoDevice.writeData data maxSize w) = -1.
Proof.
  intros borrowed p len advanced.
  subst advanced len p. unfold WrappingIoDevice.readData. fold borrowed.
  destruct borrowed as [[[p len] bd] sig1]. cbn [fst snd].
  split; [| split; [| split]].
  - intros ->. reflexivity.
  - intros Hlen. apply Z.eqb_neq in Hlen. rewrite Hlen.
    destruct (advanceReadPointer len bd) as [[ok bd'] sig2]. reflexivity.
  - unfold WrappingIoDevice.isSequential. apply Z.eqb_eq.
  - reflexivity.
Qed.

End WrappingProperties.

Lemma C9_wrapping_device_witness :
  let w := WrappingIoDevice.ctor hello_device4 in
  let over := WrappingIoDevice.ctor (ByteArrayImpl.Build_t HELLOWORLD 10) in
  let r := WrappingIoDevice.readData (list_byte_of_string "........") 8 w in
  (fst (fst (fst r)) = 4 /\
   snd (fst (fst r)) = list_byte_of_string "HELL...." /\
   IoDeviceImpl.totalAdvancements
     (WrappingIoDevice.byteDevice (snd (fst r))) = 4 /\
   snd r = [readProgress 4 10])
  /\
  WrappingIoDevice.readData [] 8 over = (-1, [], over, []).
Proof.
  intros w over r. split.
  - destruct (C9_wrapping_device w (list_byte_of_string "........") 8)
      as (_ & Hcopy & _).
    subst r. rewrite Hcopy; [| vm_compute; discriminate].
    vm_compute. repeat split; reflexivity.
  - destruct (C9_wrapping_device over [] 8) as (Hend & _).
    rewrite Hend; reflexivity.
Defined.

(** ** The position of the byte-array device *)

Lemma ByteArrayCalls_after_call_byteArray
  (c : ByteArrayCalls.Call) (s : ByteArrayImpl.t) :
  ByteArrayImpl.byteArray (ByteArrayCalls.after_call c s)
  = ByteArrayImpl.byteArray s.
Proof.
  destruct c; cbn; try reflexivity.
  now rewrite ByteArrayImpl_readPointer_state.
Qed.

Lemma ByteArrayCalls_after_call_position
  (c : ByteArrayCalls.Call) (s : ByteArrayImpl.t) :
  ByteArrayImpl.currentPosition (ByteArrayCalls.after_call c s)
  = match c with
    | ByteArrayCalls.BA_advanceReadPointer amount =>
        ByteArrayImpl.currentPosition s + amount
    | ByteArrayCalls.BA_reset => 0
    | _ => ByteArrayImpl.currentPosition s
    end.
Proof.
  destruct c; cbn; try reflexivity.
  now rewrite ByteArrayImpl_readPointer_state.
Qed.

Lemma ByteArrayCalls_reachable_inv (ba : QByteArray) (s : ByteArrayImpl.t) :
  ByteArrayCalls.reachable ba s ->
  ByteArrayImpl.byteArray s = ba /\
  0 <= ByteArrayImpl.currentPosition s <= qsize ba.
Proof.
  induction 1 as [| s c Hreach [IHba IHpos] Hrange].
  - cbn. split; [reflexivity |]. pose proof (qsize_nonneg ba). lia.
  - rewrite ByteArrayCalls_after_call_byteArray,
      ByteArrayCalls_after_call_position.
    split; [assumption |].
    destruct c; cbn in Hrange; try lia.
    unfold ByteArrayImpl.size in Hrange. rewrite IHba in Hrange. lia.
Qed.

(** C7, as stated, fails: [advanceReadPointer(11)] on a new device over the
    10 bytes of HELLOWORLD leaves the position at 11, past the size. *)
Lemma C7_position_can_pass_size :
  let s := ByteArrayCalls.after_calls [ByteArrayCalls.BA_advanceReadPointer 11]
             (ByteArrayImpl.ctor HELLOWORLD) in
  ~ (0 <= ByteArrayImpl.currentPosition s <= ByteArrayImpl.size s).
Proof.
  vm_compute. intros [_ Hle]. apply Hle. reflexivity.
Qed.

(** C7. For the byte-array device, in every state reached from
    construction by [readPointer], [advanceReadPointer], [atEnd] and
    [reset] calls whose advancements are by amounts between 0 and
    [size - position], the position is between 0 and the size, and no such
    call other than [reset] lowers it. *)
Theorem C7_ByteArrayImpl_position_in_bounds
  (ba : QByteArray) (s : ByteArrayImpl.t) :
  ByteArrayCalls.reachable ba s ->
  0 <= ByteArrayImpl.currentPosition s <= ByteArrayImpl.size s /\
  forall c : ByteArrayCalls.Call,
    ByteArrayCalls.in_range c s ->
    c <> ByteArrayCalls.BA_reset ->
    ByteArrayImpl.currentPosition s
    <= ByteArrayImpl.currentPosition (ByteArrayCalls.after_call c s).
Proof.
  intros Hreach.
  destruct (ByteArrayCalls_reachable_inv ba s Hreach) as [Hba Hpos].
  split.
  - unfold ByteArrayImpl.size. rewrite Hba. exact Hpos.
  - intros c Hrange Hc. rewrite ByteArrayCalls_after_call_position.
    destruct c; cbn in Hrange; try lia. contradiction.
Qed.

Lemma C7_ByteArrayImpl_position_in_bounds_witness :
  let s := ByteArrayCalls.after_call (ByteArrayCalls.BA_advanceReadPointer 4)
             (ByteArrayCalls.after_call (ByteArrayCalls.BA_readPointer 4)
                (ByteArrayImpl.ctor HELLOWORLD)) in
  ByteArrayCalls.reachable HELLOWORLD s /\
  0 <= ByteArrayImpl.currentPosition s <= ByteArrayImpl.size s.
Proof.
  intros s.
  assert (Hreach : ByteArrayCalls.reachable HELLOWORLD s).
  { apply ByteArrayCalls.reach_call.
    - apply ByteArrayCalls.reach_call; [apply ByteArrayCalls.reach_ctor |].
      exact I.
    - vm_compute. split; discriminate. }
  split; [exact Hreach |].
  exact (proj1 (C7_ByteArrayImpl_position_in_bounds HELLOWORLD s Hreach)).
Defined.

(** ** Progress signals *)
Section ProgressProperties.
Context {D : Type} `{QIODevice D}.

Lemma IoDeviceImpl_readPointer_total (s : IoDeviceImpl.t D) (maximumLength : Z) :
  let r := IoDeviceImpl.readPointer maximumLength s in
  IoDeviceImpl.totalAdvancements (snd (fst r))
  = IoDeviceImpl.totalAdvancements s /\
  Forall (fun sig => current sig = IoDeviceImpl.totalAdvancements s) (snd r).
Proof.
  unfold IoDeviceImpl.readPointer.
  destruct (IoDeviceImpl.eof s); [cbn; auto |]. fields.
  destruct (_ >? 0); [cbn; auto |].
  destruct (dev_read _ _) as [[haveRead data] d].
  destruct (_ || _); cbn [fst snd]; fields; [| auto].
  split; [reflexivity |].
  destruct (_ =? -1); repeat constructor.
Qed.

Lemma IoDeviceImpl_advance_total (s : IoDeviceImpl.t D) (amount : Z) :
  let r := IoDeviceImpl.advanceReadPointer amount s in
  fst (fst r) = true ->
  IoDeviceImpl.totalAdvancements (snd (fst r))
  = IoDeviceImpl.totalAdvancements s + amount /\
  Forall (fun sig => current sig = IoDeviceImpl.totalAdvancements s + amount)
         (snd r).
Proof.
  unfold IoDeviceImpl.advanceReadPointer. fields.
  destruct (_ >? _).
  - destruct (IoDeviceImpl.skip_loop _ _ _) as [[i |] d]; cbn [fst snd];
      fields; [discriminate |].
    intros _. split; [reflexivity |].
    destruct (_ =? -1); repeat constructor.
  - cbn [fst snd]. fields. intros _. split; [reflexivity |].
    destruct (_ =? -1); repeat constructor.
Qed.

(** A call that did not fail moves the reported count up by a
    non-negative amount, and each of its signals reports the count it
    leaves. *)
Lemma do_call_consumed (call : Call) (c : AnyDevice D) :
  nonnegative call ->
  succeeded (do_call call c) ->
  consumed c <= consumed (after (do_call call c)) /\
  Forall (fun sig => current sig = consumed (after (do_call call c)))
         (emitted (do_call call c)).
Proof.
  intros Hnn Hok. destruct call as [maximumLength | amount].
  - clear Hnn Hok. destruct c as [s | s | s | s]; cbn.
    + unfold ByteArrayImpl.readPointer.
      destruct (ByteArrayImpl.atEnd s); cbn; split; (lia || constructor).
    + unfold BufferImpl.readPointer, ByteArrayImpl.readPointer.
      destruct (ByteArrayImpl.atEnd _); cbn; split; (lia || constructor).
    + unfold RingBufferImpl.readPointer.
      destruct (RingBufferImpl.atEnd s); [cbn; split; (lia || constructor) |].
      destruct (RingBufferImpl.readPointerAtPosition _ _).
      cbn; split; (lia || constructor).
    + pose proof (IoDeviceImpl_readPointer_total s maximumLength) as Ht.
      cbv zeta in Ht.
      destruct (IoDeviceImpl.readPointer maximumLength s) as [[[p len] s'] sig].
      cbn in *. destruct Ht as [Ht Hsig]. rewrite Ht. split; [lia | exact Hsig].
  - cbn in Hnn. destruct c as [s | s | s | s]; cbn in *.
    + split; [lia | repeat constructor].
    + split; [lia | repeat constructor].
    + split; [lia | repeat constructor].
    + pose proof (IoDeviceImpl_advance_total s amount) as Ht.
      cbv zeta in Ht. unfold succeeded in Hok. cbn in Hok.
      destruct (IoDeviceImpl.advanceReadPointer amount s) as [[ok s'] sig].
      cbn in *. destruct ok; [| congruence].
      destruct (Ht eq_refl) as [Ht' Hsig]. rewrite Ht'. split; [lia | exact Hsig].
Qed.

Lemma run_signals_sorted (calls : list Call) :
  forall c : AnyDevice D,
    Forall nonnegative calls ->
    Forall succeeded (run calls c) ->
    StronglySorted Z.le (map current (signals (run calls c))) /\
    Forall (fun x => consumed c <= x) (map current (signals (run calls c))).
Proof.
  induction calls as [| call rest IH]; intros c Hnn Hok.
  - cbn. split; constructor.
  - cbn [run] in *. inversion Hnn as [| ? ? Hnn1 Hnn2]; subst.
    inversion Hok as [| ? ? Hok1 Hok2]; subst.
    destruct (do_call_consumed call c Hnn1 Hok1) as [Hle Hsig].
    destruct (IH (after (do_call call c)) Hnn2 Hok2) as [Hsorted Hlow].
    unfold signals in *. cbn [flat_map]. rewrite map_app.
    set (here := emitted (do_call call c)) in *.
    set (later := flat_map emitted (run rest (after (do_call call c)))) in *.
    set (n := consumed (after (do_call call c))) in *.
    clearbody here later n. clear IH Hok Hok1 Hok2 Hnn Hnn1 Hnn2.
    split.
    + induction Hsig as [| sig here' Hcur Hrest IHhere]; cbn.
      * exact Hsorted.
      * constructor; [exact IHhere |].
        rewrite <- map_app. rewrite map_app. apply Forall_app. split.
        -- clear IHhere. induction Hrest as [| sig' here'' Hc _ IHr];
             cbn; constructor; [lia | exact IHr].
        -- eapply Forall_impl; [| exact Hlow]. cbn. intros x Hx. lia.
    + apply Forall_app. split.
      * induction Hsig as [| sig here' Hcur _ IHhere]; cbn; constructor;
          [lia | exact IHhere].
      * eapply Forall_impl; [| exact Hlow]. cbn. intros x Hx. lia.
Qed.

End ProgressProperties.

Lemma rb_size_nonneg (rb : RingBufferImpl.QRingBuffer) :
  0 <= RingBufferImpl.rb_size rb.
Proof.
  unfold RingBufferImpl.rb_size.
  induction rb as [| chunk rest IH]; cbn [fold_right]; [lia |].
  pose proof (qsize_nonneg chunk). lia.
Qed.

Lemma rb_size_cons (chunk : QByteArray) (rest : RingBufferImpl.QRingBuffer) :
  RingBufferImpl.rb_size (chunk :: rest)
  = qsize chunk + RingBufferImpl.rb_size rest.
Proof. reflexivity. Qed.

(** The contiguous run the ring buffer gives at a position ends within the
    buffer. *)
Lemma readPointerAtPosition_within (rb : RingBufferImpl.QRingBuffer) :
  forall pos : Z,
    pos < RingBufferImpl.rb_size rb ->
    snd (RingBufferImpl.readPointerAtPosition rb pos)
    <= RingBufferImpl.rb_size rb - pos.
Proof.
  induction rb as [| chunk rest IH]; intros pos Hpos;
    [cbn in *; lia |].
  rewrite rb_size_cons in *. cbn [RingBufferImpl.readPointerAtPosition].
  pose proof (rb_size_nonneg rest) as Hrest.
  destruct (qsize chunk >? pos) eqn:E.
  - cbn [snd]. lia.
  - rewrite Z.gtb_ltb in E. apply Z.ltb_ge in E.
    specialize (IH (pos - qsize chunk)). lia.
Qed.

Lemma MemDevice_lawful : DeviceLaws MemDevice.wf.
Proof.
  constructor.
  - intros maxlen d n data d' Hwf Hread. cbn in Hread |- *.
    unfold MemDevice.read, MemDevice.wf, MemDevice.isSequential, MemDevice.pos,
      MemDevice.bytesAvailable in *.
    destruct (maxlen <? 0) eqn:Em.
    { injection Hread as <- <- <-.
      destruct (MemDevice.sequential d); repeat split; intros; lia. }
    destruct (_ <=? 0) eqn:Ea.
    { injection Hread as <- <- <-.
      destruct (MemDevice.sequential d); repeat split; intros; lia. }
    injection Hread as <- <- <-. cbn.
    apply Z.ltb_ge in Em. apply Z.leb_gt in Ea.
    destruct (MemDevice.sequential d); repeat split; intros; lia.
  - intros d Hwf Hseq. cbn in Hseq |- *.
    unfold MemDevice.wf, MemDevice.isSequential, MemDevice.pos, MemDevice.size in *.
    rewrite Hseq. lia.
  - intros d d' Hwf Hreset. cbn in Hreset |- *.
    unfold MemDevice.reset, MemDevice.seek, MemDevice.wf, MemDevice.isSequential,
      MemDevice.pos in *.
    destruct (MemDevice.sequential d) eqn:Es; [discriminate |].
    destruct (_ && _) eqn:Ep; [| discriminate].
    injection Hreset as <-. cbn. rewrite Es. split; [lia | reflexivity].
  - intros p d d' Hwf Hseek. cbn in Hseek |- *.
    unfold MemDevice.seek, MemDevice.wf, MemDevice.isSequential,
      MemDevice.pos in *.
    destruct (MemDevice.sequential d) eqn:Es; [discriminate |].
    destruct (_ && _) eqn:Ep; [| discriminate].
    injection Hseek as <-. cbn. rewrite Es.
    apply andb_prop in Ep. destruct Ep as [E1 E2].
    apply Z.leb_le in E1, E2. split; [lia | reflexivity].
Qed.

Section WithinSize.
Context {D : Type} `{QIODevice D}.
Variable wf : D -> Prop.
Hypothesis laws : DeviceLaws wf.

Lemma fresh_budget (c : AnyDevice D) : fresh wf c -> budget wf 0 c.
Proof.
  intros Hfresh. destruct Hfresh as [ba | b | rb | d Hwf | c c' Hwf Hreset].
  - split; [lia |]. cbn. unfold ByteArrayImpl.size. cbn.
    pose proof (qsize_nonneg ba). lia.
  - split; [lia |]. cbn. unfold BufferImpl.size, ByteArrayImpl.size. cbn.
    pose proof (qsize_nonneg
                  (skipn (Z.to_nat (BufferImpl.buffer_pos b))
                     (BufferImpl.buffer_data b))). lia.
  - split; [lia |]. pose proof (rb_size_nonneg rb).
    unfold budget, RingBufferImpl.size, RingBufferImpl.ctor.
    cbn [RingBufferImpl.currentPosition RingBufferImpl.ringBuffer]. lia.
  - split; [lia |]. cbn. split; [exact Hwf |]. split; lia.
  - split; [lia |]. destruct c as [s | s | s | s]; cbn in Hreset.
    + injection Hreset as <-. cbn. unfold ByteArrayImpl.size. cbn.
      pose proof (qsize_nonneg (ByteArrayImpl.byteArray s)). lia.
    + injection Hreset as <-. cbn.
      unfold BufferImpl.size, ByteArrayImpl.size. cbn.
      pose proof (qsize_nonneg
                    (ByteArrayImpl.byteArray (BufferImpl.arrayImpl s))). lia.
    + injection Hreset as <-.
      pose proof (rb_size_nonneg (RingBufferImpl.ringBuffer s)).
      unfold budget, RingBufferImpl.size.
      cbn [RingBufferImpl.currentPosition RingBufferImpl.ringBuffer]. lia.
    + cbn in Hwf. unfold IoDeviceImpl.reset in Hreset.
      destruct (IoDeviceImpl.initialPosition s =? 0) eqn:E0.
      * destruct (dev_reset (IoDeviceImpl.device s)) as [ok d] eqn:Er.
        destruct ok; [| discriminate]. injection Hreset as <-.
        destruct (law_reset wf laws _ _ Hwf Er) as [Hwf' Hpos].
        apply Z.eqb_eq in E0. cbn. fields.
        split; [exact Hwf' |]. split; [lia |].
        intros Hseq. rewrite (Hpos Hseq). lia.
      * destruct (dev_seek _ (IoDeviceImpl.device s)) as [ok d] eqn:Er.
        destruct ok; [| discriminate]. injection Hreset as <-.
        destruct (law_seek wf laws _ _ _ Hwf Er) as [Hwf' Hpos].
        cbn. fields.
        split; [exact Hwf' |]. split; [lia |].
        intros Hseq. rewrite (Hpos Hseq). lia.
Qed.

Lemma IoDeviceImpl_readPointer_budget
  (s : IoDeviceImpl.t D) (maximumLength granted : Z) :
  budget wf granted (IoDevice s) ->
  let r := IoDeviceImpl.readPointer maximumLength s in
  budget wf (Z.max 0 (snd (fst (fst r)))) (IoDevice (snd (fst r))) /\
  (IoDeviceImpl.size (snd (fst r)) <> -1 -> snd r = []).
Proof.
  intros (Hg & Hwf & Hpos & Hsum). cbn in Hwf, Hpos, Hsum.
  unfold IoDeviceImpl.readPointer.
  destruct (IoDeviceImpl.eof s) eqn:Eeof.
  { cbn [fst snd]. split; [| reflexivity].
    split; [lia |]. cbn. split; [exact Hwf |]. split; [lia | exact Hsum]. }
  fields. destruct (_ >? 0) eqn:Ebuf.
  { cbn [fst snd]. split; [| reflexivity]. apply Z.gtb_lt in Ebuf.
    split; [lia |]. cbn. fields. split; [exact Hwf |]. split; [lia | exact Hsum]. }
  rewrite Z.gtb_ltb in Ebuf. apply Z.ltb_ge in Ebuf.
  destruct (dev_read _ _) as [[haveRead data] d] eqn:Eread.
  destruct (law_read wf laws _ _ _ _ _ Hwf Eread)
    as (Hwf' & Hseq & Hn & Hmove).
  destruct (_ || _) eqn:Eend; cbn [fst snd]; fields.
  - split.
    + split; [lia |]. cbn. fields. split; [exact Hwf' |]. split; [lia |].
      intros Hs. rewrite Hseq in Hs. specialize (Hsum Hs).
      specialize (Hmove Hs). lia.
    + intros Hsize. apply Z.eqb_neq in Hsize. now rewrite Hsize.
  - split; [| reflexivity].
    apply orb_false_iff in Eend. destruct Eend as [Em1 _].
    apply Z.eqb_neq in Em1.
    split; [lia |]. cbn. fields. split; [exact Hwf' |]. split; [lia |].
    intros Hs. rewrite Hseq in Hs. specialize (Hsum Hs).
    specialize (Hmove Hs). lia.
Qed.

Lemma IoDeviceImpl_advance_budget
  (s : IoDeviceImpl.t D) (amount granted : Z) :
  budget wf granted (IoDevice s) ->
  0 <= amount <= granted ->
  let r := IoDeviceImpl.advanceReadPointer amount s in
  budget wf (granted - amount) (IoDevice (snd (fst r))) /\
  (IoDeviceImpl.size (snd (fst r)) <> -1 ->
   Forall (fun sig => current sig <= IoDeviceImpl.size (snd (fst r)))
          (snd r)).
Proof.
  intros (Hg & Hwf & Hpos & Hsum) Hamount. cbn in Hwf, Hpos, Hsum.
  unfold IoDeviceImpl.advanceReadPointer. fields.
  assert (Hin : (IoDeviceImpl.currentReadBufferPosition s + amount
                 >? IoDeviceImpl.currentReadBufferAmount s) = false).
  { rewrite Z.gtb_ltb. apply Z.ltb_ge. lia. }
  rewrite Hin. cbn [fst snd]. split.
  - split; [lia |]. cbn. fields. split; [exact Hwf |]. split; [lia |].
    intros Hs. specialize (Hsum Hs). lia.
  - unfold IoDeviceImpl.size. fields.
    destruct (dev_isSequential (IoDeviceImpl.device s)) eqn:Es;
      [congruence |].
    intros Hsize. apply Z.eqb_neq in Hsize. rewrite Hsize.
    constructor; [| constructor]. cbn.
    specialize (Hsum eq_refl).
    pose proof (law_pos wf laws _ Hwf Es). lia.
Qed.

Lemma readPointer_budget (c : AnyDevice D) (maximumLength granted : Z) :
  budget wf granted c ->
  let r := readPointer maximumLength c in
  budget wf (Z.max 0 (snd (fst (fst r)))) (snd (fst r)) /\
  (size (snd (fst r)) <> -1 ->
   Forall (fun sig => current sig <= size (snd (fst r))) (snd r)).
Proof.
  intros Hb. destruct c as [s | s | s | s];
    cbn [readPointer AnyDevice_device any_readPointer
         ByteArrayImpl_device BufferImpl_device RingBufferImpl_device
         IoDeviceImpl_device].
  - destruct Hb as [Hg Hb]. cbn in Hb.
    unfold ByteArrayImpl.readPointer.
    destruct (ByteArrayImpl.atEnd s) eqn:Eend; cbn [fst snd].
    + split; [| constructor]. split; [lia |]. cbn. lia.
    + split; [| constructor]. split; [lia |]. cbn.
      unfold ByteArrayImpl.atEnd in Eend.
      rewrite Z.geb_leb in Eend. apply Z.leb_gt in Eend.
      destruct (negb _); lia.
  - destruct Hb as [Hg Hb]. cbn in Hb. unfold BufferImpl.size in Hb.
    unfold BufferImpl.readPointer, ByteArrayImpl.readPointer.
    destruct (ByteArrayImpl.atEnd (BufferImpl.arrayImpl s)) eqn:Eend;
      cbn [fst snd].
    + split; [| constructor]. split; [lia |]. cbn.
      unfold BufferImpl.size. cbn. lia.
    + split; [| constructor]. split; [lia |]. cbn.
      unfold BufferImpl.size. cbn.
      unfold ByteArrayImpl.atEnd in Eend.
      rewrite Z.geb_leb in Eend. apply Z.leb_gt in Eend.
      destruct (negb _); lia.
  - destruct Hb as [Hg Hb]. unfold RingBufferImpl.size in Hb.
    unfold RingBufferImpl.readPointer.
    destruct (RingBufferImpl.atEnd s) eqn:Eend; cbn [fst snd].
    + split; [| constructor]. split; [lia |].
      unfold RingBufferImpl.size. lia.
    + unfold RingBufferImpl.atEnd, RingBufferImpl.size in Eend.
      rewrite Z.geb_leb in Eend. apply Z.leb_gt in Eend.
      pose proof (readPointerAtPosition_within
                    (RingBufferImpl.ringBuffer s)
                    (RingBufferImpl.currentPosition s) Eend) as Hrun.
      destruct (RingBufferImpl.readPointerAtPosition _ _) as [p len].
      cbn [fst snd] in *. split; [| constructor]. split; [lia |].
      unfold RingBufferImpl.size. destruct (negb _); lia.
  - destruct (IoDeviceImpl_readPointer_budget s maximumLength granted Hb)
      as [Hb' Hsig].
    destruct (IoDeviceImpl.readPointer maximumLength s) as [[[p len] s'] sig].
    cbn [fst snd] in *. split; [exact Hb' |].
    intros Hsize. rewrite (Hsig Hsize). constructor.
Qed.

Lemma advanceReadPointer_budget (c : AnyDevice D) (amount granted : Z) :
  budget wf granted c ->
  0 <= amount <= granted ->
  let r := advanceReadPointer amount c in
  budget wf (granted - amount) (snd (fst r)) /\
  (size (snd (fst r)) <> -1 ->
   Forall (fun sig => current sig <= size (snd (fst r))) (snd r)).
Proof.
  intros Hb Hamount. destruct c as [s | s | s | s];
    cbn [advanceReadPointer AnyDevice_device any_advanceReadPointer
         ByteArrayImpl_device BufferImpl_device RingBufferImpl_device
         IoDeviceImpl_device].
  - destruct Hb as [Hg Hb]. cbn in Hb. unfold ByteArrayImpl.size in Hb.
    cbn. unfold ByteArrayImpl.size. cbn. unfold qsize in *.
    split; [split; [lia |] |].
    + cbn. unfold ByteArrayImpl.size, qsize. cbn. lia.
    + intros _. constructor; [cbn; lia | constructor].
  - destruct Hb as [Hg Hb]. cbn in Hb.
    unfold BufferImpl.size, ByteArrayImpl.size in Hb.
    cbn. unfold BufferImpl.size, ByteArrayImpl.size. cbn. unfold qsize in *.
    split; [split; [lia |] |].
    + cbn. unfold BufferImpl.size, ByteArrayImpl.size, qsize. cbn. lia.
    + intros _. constructor; [cbn; lia | constructor].
  - destruct Hb as [Hg Hb]. unfold RingBufferImpl.size in Hb.
    unfold RingBufferImpl.advanceReadPointer.
    cbn [fst snd size any_size AnyDevice_device RingBufferImpl_device].
    unfold RingBufferImpl.size.
    cbn [RingBufferImpl.currentPosition RingBufferImpl.ringBuffer].
    split; [split; [lia |] |].
    + unfold RingBufferImpl.size.
      cbn [RingBufferImpl.currentPosition RingBufferImpl.ringBuffer]. lia.
    + intros _. constructor; [cbn [current]; lia | constructor].
  - destruct (IoDeviceImpl_advance_budget s amount granted Hb Hamount)
      as [Hb' Hsig].
    destruct (IoDeviceImpl.advanceReadPointer amount s) as [[ok s'] sig].
    cbn [fst snd] in *. split; [exact Hb' | exact Hsig].
Qed.

Lemma run_within_size (calls : list Call) :
  forall (c : AnyDevice D) (granted : Z),
    budget wf granted c ->
    within_grant granted calls c ->
    Forall within_size (run calls c).
Proof.
  induction calls as [| call rest IH]; intros c granted Hb Hgrant.
  - constructor.
  - cbn [run]. destruct call as [maximumLength | amount];
      cbn [within_grant do_call] in *.
    + destruct (readPointer_budget c maximumLength granted Hb) as [Hb' Hsig].
      destruct (readPointer maximumLength c) as [[[p len] c'] sig].
      cbn [fst snd after] in *.
      constructor; [exact Hsig | exact (IH c' _ Hb' Hgrant)].
    + destruct Hgrant as [Hamount Hgrant].
      destruct (advanceReadPointer_budget c amount granted Hb Hamount)
        as [Hb' Hsig].
      destruct (advanceReadPointer amount c) as [[ok c'] sig].
      cbn [fst snd after] in *.
      constructor; [exact Hsig | exact (IH c' _ Hb' Hgrant)].
Qed.

End WithinSize.

Section ProgressBetweenResets.
Context {D : Type} `{QIODevice D}.

(** Skipping a byte does not change whether the QIODevice is sequential,
    nor the size of a random-access one. *)
Hypothesis getChar_keeps_size :
  forall d : D,
    dev_isSequential (snd (dev_getChar d)) = dev_isSequential d /\
    (dev_isSequential d = false -> dev_size (snd (dev_getChar d)) = dev_size d).

Lemma skip_loop_keeps_size (n : nat) :
  forall (i : Z) (d : D),
    dev_isSequential (snd (IoDeviceImpl.skip_loop n i d)) = dev_isSequential d /\
    (dev_isSequential d = false ->
     dev_size (snd (IoDeviceImpl.skip_loop n i d)) = dev_size d).
Proof.
  induction n as [| n IH]; intros i d; [cbn; auto |].
  cbn [IoDeviceImpl.skip_loop].
  destruct (getChar_keeps_size d) as [Hkind Hsize].
  destruct (dev_getChar d) as [ok d1]. cbn [snd] in *.
  destruct ok; [| cbn [snd]; auto].
  destruct (IH (i - 1) d1) as [Hkind1 Hsize1]. split.
  - congruence.
  - intros Hd. rewrite Hsize1; [auto | congruence].
Qed.

Lemma skip_loop_left (n : nat) :
  forall (i j : Z) (d d' : D),
    IoDeviceImpl.skip_loop n i d = (Some j, d') ->
    i - Z.of_nat n < j <= i.
Proof.
  induction n as [| n IH]; intros i j d d' Hloop; [discriminate |].
  cbn [IoDeviceImpl.skip_loop] in Hloop.
  destruct (dev_getChar d) as [ok d1]. destruct ok.
  - specialize (IH _ _ _ _ Hloop). lia.
  - injection Hloop as <- <-. lia.
Qed.

Lemma IoDeviceImpl_size_set_device (s : IoDeviceImpl.t D) (d : D) :
  dev_isSequential d = dev_isSequential (IoDeviceImpl.device s) ->
  (dev_isSequential (IoDeviceImpl.device s) = false ->
   dev_size d = dev_size (IoDeviceImpl.device s)) ->
  IoDeviceImpl.size (IoDeviceImpl.set_device d s) = IoDeviceImpl.size s.
Proof.
  intros Hkind Hsize. unfold IoDeviceImpl.size. fields. rewrite Hkind.
  destruct (dev_isSequential (IoDeviceImpl.device s)); [reflexivity |].
  now rewrite Hsize.
Qed.

Lemma IoDeviceImpl_readPointer_known_size
  (s : IoDeviceImpl.t D) (maximumLength : Z) :
  IoDeviceImpl.size (snd (fst (IoDeviceImpl.readPointer maximumLength s)))
  <> -1 ->
  snd (IoDeviceImpl.readPointer maximumLength s) = [].
Proof.
  unfold IoDeviceImpl.readPointer.
  destruct (IoDeviceImpl.eof s); [reflexivity |]. fields.
  destruct (_ >? 0); [reflexivity |].
  destruct (dev_read _ _) as [[haveRead data] d].
  destruct (_ || _); cbn [fst snd]; fields; [| reflexivity].
  intros Hsize. apply Z.eqb_neq in Hsize. now rewrite Hsize.
Qed.

Lemma IoDeviceImpl_advance_within_data (s : IoDeviceImpl.t D) (amount : Z) :
  (IoDeviceImpl.size s <> -1 ->
   IoDeviceImpl.totalAdvancements s + amount <= IoDeviceImpl.size s) ->
  let r := IoDeviceImpl.advanceReadPointer amount s in
  IoDeviceImpl.size (snd (fst r)) <> -1 ->
  Forall (fun sig => current sig <= IoDeviceImpl.size (snd (fst r))) (snd r).
Proof.
  intros Hdata. cbv zeta. unfold IoDeviceImpl.advanceReadPointer. fields.
  set (s1 := IoDeviceImpl.set_currentReadBufferPosition
               (IoDeviceImpl.currentReadBufferPosition s + amount)
               (IoDeviceImpl.set_totalAdvancements
                  (IoDeviceImpl.totalAdvancements s + amount) s)).
  assert (Hs1 : IoDeviceImpl.size s1 = IoDeviceImpl.size s) by reflexivity.
  assert (Hprogress :
            IoDeviceImpl.size s <> -1 ->
            current (if IoDeviceImpl.size s1 =? -1
                     then readProgress (IoDeviceImpl.totalAdvancements s + amount)
                            (IoDeviceImpl.totalAdvancements s + amount)
                     else readProgress (IoDeviceImpl.totalAdvancements s + amount)
                            (IoDeviceImpl.size s1))
            <= IoDeviceImpl.size s).
  { intros Hknown. specialize (Hdata Hknown).
    destruct (_ =? -1); cbn [current]; exact Hdata. }
  destruct (_ >? _) eqn:Eover.
  - apply Z.gtb_lt in Eover.
    set (i := IoDeviceImpl.currentReadBufferPosition s + amount
              - IoDeviceImpl.currentReadBufferAmount s) in *.
    destruct (skip_loop_keeps_size (Z.to_nat i) i (IoDeviceImpl.device s))
      as [Hkind Hsize].
    pose proof (skip_loop_left (Z.to_nat i) i) as Hleft.
    destruct (IoDeviceImpl.skip_loop (Z.to_nat i) i (IoDeviceImpl.device s))
      as [[j |] d] eqn:Eloop; cbn [fst snd] in *.
    + specialize (Hleft j _ _ Eloop).
      assert (Hsame : IoDeviceImpl.size (IoDeviceImpl.set_device d s1)
                      = IoDeviceImpl.size s).
      { rewrite <- Hs1. apply IoDeviceImpl_size_set_device; assumption. }
      rewrite Hsame. intros Hknown.
      constructor; [exact (Hprogress Hknown) |].
      constructor; [| constructor]. cbn [current]. fields.
      specialize (Hdata Hknown). lia.
    + assert (Hsame : IoDeviceImpl.size
                        (IoDeviceImpl.set_currentReadBufferAmount 0
                           (IoDeviceImpl.set_currentReadBufferPosition 0
                              (IoDeviceImpl.set_device d s1)))
                      = IoDeviceImpl.size s).
      { rewrite <- Hs1.
        rewrite <- (IoDeviceImpl_size_set_device s1 d Hkind Hsize).
        reflexivity. }
      rewrite Hsame. intros Hknown.
      constructor; [exact (Hprogress Hknown) | constructor].
  - cbn [fst snd]. rewrite Hs1. intros Hknown.
    constructor; [exact (Hprogress Hknown) | constructor].
Qed.

Lemma do_call_within_data (call : Call) (c : AnyDevice D) :
  match call with
  | CallReadPointer _ => True
  | CallAdvance amount => size c <> -1 -> consumed c + amount <= size c
  end ->
  within_size (do_call call c).
Proof.
  intros Hdata. unfold within_size.
  destruct call as [maximumLength | amount].
  - clear Hdata. destruct c as [s | s | s | s]; cbn.
    + unfold ByteArrayImpl.readPointer.
      destruct (ByteArrayImpl.atEnd s); cbn; constructor.
    + unfold BufferImpl.readPointer, ByteArrayImpl.readPointer.
      destruct (ByteArrayImpl.atEnd _); cbn; constructor.
    + unfold RingBufferImpl.readPointer.
      destruct (RingBufferImpl.atEnd s); [cbn; constructor |].
      destruct (RingBufferImpl.readPointerAtPosition _ _). cbn. constructor.
    + pose proof (IoDeviceImpl_readPointer_known_size s maximumLength) as Hk.
      destruct (IoDeviceImpl.readPointer maximumLength s) as [[[p len] s'] sig].
      cbn in *. intros Hknown. rewrite (Hk Hknown). constructor.
  - destruct c as [s | s | s | s];
      cbn [size consumed AnyDevice_device any_size ByteArrayImpl_device
           BufferImpl_device RingBufferImpl_device IoDeviceImpl_device]
        in Hdata.
    + cbn. intros Hknown. constructor; [| constructor]. cbn.
      exact (Hdata Hknown).
    + cbn. intros Hknown. constructor; [| constructor]. cbn.
      exact (Hdata Hknown).
    + cbn [do_call advanceReadPointer AnyDevice_device
           any_advanceReadPointer RingBufferImpl_device].
      unfold RingBufferImpl.advanceReadPointer.
      cbn [after emitted size any_size AnyDevice_device
           RingBufferImpl_device].
      unfold RingBufferImpl.size in *.
      cbn [RingBufferImpl.ringBuffer RingBufferImpl.currentPosition].
      intros Hknown. constructor; [| constructor]. cbn [current].
      exact (Hdata Hknown).
    + pose proof (IoDeviceImpl_advance_within_data s amount Hdata) as Hadv.
      cbv zeta in Hadv.
      cbn [do_call advanceReadPointer AnyDevice_device
           any_advanceReadPointer IoDeviceImpl_device].
      destruct (IoDeviceImpl.advanceReadPointer amount s) as [[ok s'] sig].
      cbn [fst snd after emitted size any_size AnyDevice_device
           IoDeviceImpl_device] in *.
      exact Hadv.
Qed.

Lemma run_within_data (calls : list Call) :
  forall c : AnyDevice D,
    within_data calls c -> Forall within_size (run calls c).
Proof.
  induction calls as [| call rest IH]; intros c Hdata; [constructor |].
  cbn [within_data run] in *. destruct Hdata as [Hcall Hrest].
  constructor; [exact (do_call_within_data call c Hcall) | exact (IH _ Hrest)].
Qed.

(** C4. For every class of device, in a sequence of [readPointer] and
    [advanceReadPointer] calls without a [reset] that computes within
    qint64: when every advancement is by a non-negative amount and none
    fails, the current values of the [readProgress] signals never
    decrease; and when no advancement goes past the end of the data (the
    position it advances to is at most [size()] where that is known), no
    signal emitted while [size()] is known (not -1) reports a current
    value above [size()]. *)
Theorem C4_progress_between_resets (c : AnyDevice D) (calls : list Call) :
  run_computes calls c ->
  (Forall nonnegative calls ->
   Forall succeeded (run calls c) ->
   StronglySorted Z.le (map current (signals (run calls c))))
  /\
  (within_data calls c ->
   Forall within_size (run calls c)).
Proof.
  intros _. split.
  - intros Hnn Hok. exact (proj1 (run_signals_sorted calls c Hnn Hok)).
  - exact (run_within_data calls c).
Qed.

End ProgressBetweenResets.

Lemma MemDevice_getChar_keeps_size (d : MemDevice.t) :
  dev_isSequential (snd (dev_getChar d)) = dev_isSequential d /\
  (dev_isSequential d = false -> dev_size (snd (dev_getChar d)) = dev_size d).
Proof.
  cbn [dev_getChar dev_isSequential dev_size MemDevice_QIODevice].
  unfold MemDevice.getChar, MemDevice.isSequential, MemDevice.size.
  destruct (_ <=? 0); cbn; [auto |]. split; [reflexivity |].
  intros ->. reflexivity.
Qed.


(** C4, as stated, fails twice. On a byte-array device over the 10 bytes
    of HELLOWORLD, [advanceReadPointer(11)] emits a signal with current
    11 while the size is 10. On a device over a QIODevice holding
    HELLOWORLD, [advanceReadPointer(20)] fails and emits the currents 20
    and then 10. *)
Lemma C4_progress_can_pass_size_and_decrease :
  ~ Forall within_size
      (run [CallAdvance 11]
         (ByteArrayDevice (D := MemDevice.t) (ByteArrayImpl.ctor HELLOWORLD)))
  /\
  ~ StronglySorted Z.le
      (map current (signals (run [CallAdvance 20] (IoDevice hello_device)))).
Proof.
  split.
  - intros Hall. inversion Hall as [| st rest Hst _]; subst.
    unfold within_size in Hst.
    assert (Hsize : size (after (do_call (CallAdvance 11)
                      (ByteArrayDevice (D := MemDevice.t)
                         (ByteArrayImpl.ctor HELLOWORLD)))) <> -1)
      by (vm_compute; discriminate).
    specialize (Hst Hsize). inversion Hst as [| sig sigs Hle _]; subst.
    vm_compute in Hle. apply Hle. reflexivity.
  - intros Hsorted.
    change (map current (signals (run [CallAdvance 20] (IoDevice hello_device))))
      with [20; 10] in Hsorted.
    inversion Hsorted as [| x xs _ Hall]; subst.
    inversion Hall as [| y ys Hle _]; subst. lia.
Qed.

Lemma C4_progress_between_resets_witness :
  let c := IoDevice hello_device4 in
  let calls := [CallReadPointer (-1); CallAdvance 7; CallReadPointer 2;
                CallAdvance 3; CallReadPointer (-1)] in
  (run_computes calls c /\ Forall nonnegative calls /\
   Forall succeeded (run calls c) /\ within_data calls c)
  /\
  map current (signals (run calls c)) = [7; 10] /\
  StronglySorted Z.le (map current (signals (run calls c))) /\
  Forall within_size (run calls c).
Proof.
  intros c calls.
  assert (Hrange : run_computes calls c) by (unfold calls, c; in_qint64).
  assert (Hnn : Forall nonnegative calls).
  { repeat constructor; cbn; lia. }
  assert (Hok : Forall succeeded (run calls c)).
  { repeat constructor; vm_compute; discriminate. }
  assert (Hdata : within_data calls c).
  { vm_compute. repeat split; intros; discriminate. }
  destruct (C4_progress_between_resets MemDevice_getChar_keeps_size c calls
              Hrange) as [Hmono Hsize].
  split; [auto |]. split; [reflexivity |].
  split; [exact (Hmono Hnn Hok) | exact (Hsize Hdata)].
Defined.

(** * Further properties *)

(** ** Accounting of advancements *)
Section Accounting.
Context {D : Type} `{QIODevice D}.

Lemma IoDeviceImpl_advance_adds (s : IoDeviceImpl.t D) (amount : Z) :
  IoDeviceImpl.totalAdvancements
    (snd (fst (IoDeviceImpl.advanceReadPointer amount s)))
  = IoDeviceImpl.totalAdvancements s + amount /\
  IoDeviceImpl.eof (snd (fst (IoDeviceImpl.advanceReadPointer amount s)))
  = IoDeviceImpl.eof s.
Proof.
  unfold IoDeviceImpl.advanceReadPointer. fields.
  destruct (_ >? _); [| cbn [fst snd]; fields; auto].
  destruct (IoDeviceImpl.skip_loop _ _ _) as [[i |] d]; cbn [fst snd];
    fields; auto.
Qed.

Lemma do_call_adds (call : Call) (c : AnyDevice D) :
  consumed (after (do_call call c)) = consumed c + advanced [call].
Proof.
  destruct call as [maximumLength | amount]; cbn [advanced fold_right].
  - destruct c as [s | s | s | s]; cbn.
    + unfold ByteArrayImpl.readPointer.
      destruct (ByteArrayImpl.atEnd s); cbn; lia.
    + unfold BufferImpl.readPointer, ByteArrayImpl.readPointer.
      destruct (ByteArrayImpl.atEnd _); cbn; lia.
    + unfold RingBufferImpl.readPointer.
      destruct (RingBufferImpl.atEnd s); [cbn; lia |].
      destruct (RingBufferImpl.readPointerAtPosition _ _). cbn. lia.
    + pose proof (IoDeviceImpl_readPointer_total s maximumLength) as Ht.
      cbv zeta in Ht.
      destruct (IoDeviceImpl.readPointer maximumLength s) as [[[p len] s'] sig].
      cbn in *. lia.
  - destruct c as [s | s | s | s]; cbn; try lia.
    pose proof (IoDeviceImpl_advance_adds s amount) as [Ht _].
    destruct (IoDeviceImpl.advanceReadPointer amount s) as [[ok s'] sig].
    cbn in *. lia.
Qed.

Lemma do_call_reports (call : Call) (c : AnyDevice D) :
  succeeded (do_call call c) ->
  Forall (fun sig => current sig = consumed (after (do_call call c)))
         (emitted (do_call call c)).
Proof.
  intros Hok. destruct call as [maximumLength | amount].
  - clear Hok. destruct c as [s | s | s | s]; cbn.
    + unfold ByteArrayImpl.readPointer.
      destruct (ByteArrayImpl.atEnd s); cbn; constructor.
    + unfold BufferImpl.readPointer, ByteArrayImpl.readPointer.
      destruct (ByteArrayImpl.atEnd _); cbn; constructor.
    + unfold RingBufferImpl.readPointer.
      destruct (RingBufferImpl.atEnd s); [cbn; constructor |].
      destruct (RingBufferImpl.readPointerAtPosition _ _). cbn. constructor.
    + pose proof (IoDeviceImpl_readPointer_total s maximumLength) as Ht.
      cbv zeta in Ht.
      destruct (IoDeviceImpl.readPointer maximumLength s) as [[[p len] s'] sig].
      cbn in *. destruct Ht as [Ht Hsig]. rewrite Ht. exact Hsig.
  - destruct c as [s | s | s | s]; cbn in *; try (repeat constructor).
    pose proof (IoDeviceImpl_advance_total s amount) as Ht.
    cbv zeta in Ht. unfold succeeded in Hok. cbn in Hok.
    destruct (IoDeviceImpl.advanceReadPointer amount s) as [[ok s'] sig].
    cbn in *. destruct ok; [| congruence].
    destruct (Ht eq_refl) as [Ht' Hsig]. rewrite Ht'. exact Hsig.
Qed.

Lemma final_cons {S : Type} (st : Step S) (steps : list (Step S)) (s : S) :
  final s (st :: steps) = final (after st) steps.
Proof.
  unfold final. cbn [map]. generalize (after st) as a. revert s.
  generalize (map after steps) as l. clear.
  induction l as [| b l IH]; intros s a; [reflexivity |].
  change (last (a :: b :: l) s) with (last (b :: l) s).
  rewrite (IH s b), (IH a b). reflexivity.
Qed.

(** X1. Whatever the class of the device and whether advancements succeed
    or fail, in a run that computes within qint64 the count a device
    reports as current grows by exactly the amounts it was advanced by,
    and every signal of a call that did not fail reports the count the
    call leaves. *)
Theorem X1_current_is_the_sum_of_advancements
  (c : AnyDevice D) (calls : list Call) :
  run_computes calls c ->
  consumed (final c (run calls c)) = consumed c + advanced calls /\
  Forall (fun st =>
            succeeded st ->
            Forall (fun sig => current sig = consumed (after st)) (emitted st))
         (run calls c).
Proof.
  intros _.
  revert c. induction calls as [| call rest IH]; intros c.
  - cbn. split; [lia | constructor].
  - cbn [run]. rewrite final_cons.
    destruct (IH (after (do_call call c))) as [Hsum Hsig].
    pose proof (do_call_adds call c) as Hadd. split.
    + rewrite Hsum, Hadd. unfold advanced. cbn [fold_right].
      destruct call; lia.
    + constructor; [| exact Hsig]. apply do_call_reports.
Qed.

End Accounting.

Lemma X1_current_is_the_sum_of_advancements_witness :
  let c := IoDevice hello_device4 in
  let calls := [CallReadPointer (-1); CallAdvance 3; CallAdvance 20;
                CallReadPointer (-1)] in
  run_computes calls c /\
  consumed (final c (run calls c)) = 23 /\
  map observe (run calls c)
  = [Borrowed 4 (list_byte_of_string "HELL"); Advanced true; Advanced false;
     Borrowed (-1) []].
Proof.
  intros c calls.
  assert (Hrange : run_computes calls c) by (unfold calls, c; in_qint64).
  split; [exact Hrange |]. split; [| reflexivity].
  exact (proj1 (X1_current_is_the_sum_of_advancements c calls Hrange)).
Defined.

(** ** End of data on the device over a QIODevice *)
Section EndOfData.
Context {D : Type} `{QIODevice D}.

(** X2. Once [eof] is set, no sequence of [readPointer] and
    [advanceReadPointer] calls clears it: every [readPointer] returns
    [(nullptr, -1)], emits no signal and leaves the object and the
    QIODevice as they are. *)
Theorem X2_eof_is_final (s : IoDeviceImpl.t D) (calls : list Call) :
  IoDeviceImpl.eof s = true ->
  Forall (fun st => IoDeviceImpl.eof (after st) = true) (run calls s) /\
  forall maximumLength,
    IoDeviceImpl.readPointer maximumLength s = ((nullptr, -1), s, []).
Proof.
  intros Heof. split.
  - revert s Heof. induction calls as [| call rest IH]; intros s Heof;
      [constructor |].
    cbn [run].
    assert (Hafter : IoDeviceImpl.eof (after (do_call call s)) = true).
    { destruct call as [maximumLength | amount]; cbn.
      - unfold IoDeviceImpl.readPointer. rewrite Heof. exact Heof.
      - pose proof (IoDeviceImpl_advance_adds s amount) as [_ He].
        destruct (IoDeviceImpl.advanceReadPointer amount s) as [[ok s'] sig].
        cbn in *. congruence. }
    constructor; [exact Hafter | exact (IH _ Hafter)].
  - intros maximumLength. unfold IoDeviceImpl.readPointer. now rewrite Heof.
Qed.

(** X3. A [readPointer] that returned a positive length or -1 can be
    repeated: the next [readPointer], whatever length it asks for, returns
    the same pointer and length, emits nothing and changes neither the
    object nor the QIODevice. *)
Theorem X3_readPointer_can_be_repeated
  (s : IoDeviceImpl.t D) (maximumLength again : Z) :
  let r := IoDeviceImpl.readPointer maximumLength s in
  0 < snd (fst (fst r)) \/ snd (fst (fst r)) = -1 ->
  IoDeviceImpl.readPointer again (snd (fst r))
  = (fst (fst r), snd (fst r), []).
Proof.
  intros r Hlen. subst r.
  destruct (IoDeviceImpl.readPointer maximumLength s) as [[[p len] s1] sig]
    eqn:E.
  cbn [fst snd] in *. unfold IoDeviceImpl.readPointer in E.
  destruct (IoDeviceImpl.eof s) eqn:Heof.
  { injection E as <- <- <- <-. unfold IoDeviceImpl.readPointer.
    now rewrite Heof. }
  fields. destruct (_ >? 0) eqn:Hbuf.
  { injection E as <- <- <- <-. apply Z.gtb_lt in Hbuf.
    rewrite (IoDeviceImpl_readPointer_buffered _ again
               (match IoDeviceImpl.currentReadBuffer s with
                | Some b => b
                | None => IoDeviceImpl.zeroed (IoDeviceImpl.currentReadBufferSize s)
                end)); fields; try reflexivity; try assumption; lia. }
  destruct (dev_read _ _) as [[haveRead data] d].
  destruct (_ || _) eqn:Hend; injection E as <- <- <- <-.
  - unfold IoDeviceImpl.readPointer. fields. reflexivity.
  - destruct Hlen as [Hpos | Hm1].
    + rewrite (IoDeviceImpl_readPointer_buffered _ again
                 (IoDeviceImpl.store data
                    (match IoDeviceImpl.currentReadBuffer s with
                     | Some b => b
                     | None => IoDeviceImpl.zeroed
                                 (IoDeviceImpl.currentReadBufferSize s)
                     end))); fields; try reflexivity; try assumption; try lia.
      rewrite Z.sub_0_r. reflexivity.
    + subst haveRead. cbn in Hend. discriminate.
Qed.

End EndOfData.

Lemma X2_eof_is_final_witness :
  let s := after_run [CallReadPointer (-1); CallAdvance 10;
                      CallReadPointer (-1)] hello_device in
  IoDeviceImpl.eof s = true /\
  Forall (fun st => IoDeviceImpl.eof (after st) = true)
         (run [CallAdvance 3; CallReadPointer 5] s).
Proof.
  intros s. split; [reflexivity |].
  exact (proj1 (X2_eof_is_final s [CallAdvance 3; CallReadPointer 5] eq_refl)).
Defined.

Lemma X3_readPointer_can_be_repeated_witness :
  0 < snd (fst (fst (IoDeviceImpl.readPointer (-1) hello_device4))) /\
  IoDeviceImpl.readPointer 1
    (snd (fst (IoDeviceImpl.readPointer (-1) hello_device4)))
  = (fst (fst (IoDeviceImpl.readPointer (-1) hello_device4)),
     snd (fst (IoDeviceImpl.readPointer (-1) hello_device4)), []).
Proof.
  split; [reflexivity |].
  apply (X3_readPointer_can_be_repeated hello_device4 (-1) 1).
  left. reflexivity.
Defined.

(** ** Callers that stay within what they were handed *)
Section WithinGrant.
Context {D : Type} `{QIODevice D}.
Variable wf : D -> Prop.
Hypothesis laws : DeviceLaws wf.

Lemma advanceReadPointer_budget_succeeds
  (c : AnyDevice D) (amount granted : Z) :
  budget wf granted c ->
  0 <= amount <= granted ->
  fst (fst (advanceReadPointer amount c)) = true.
Proof.
  intros Hb Hamount. destruct c as [s | s | s | s]; try reflexivity.
  destruct Hb as (Hg & Hwf & Hpos & Hsum).
  cbn [advanceReadPointer AnyDevice_device any_advanceReadPointer
       IoDeviceImpl_device].
  unfold IoDeviceImpl.advanceReadPointer. fields.
  assert (Hin : (IoDeviceImpl.currentReadBufferPosition s + amount
                 >? IoDeviceImpl.currentReadBufferAmount s) = false).
  { rewrite Z.gtb_ltb. apply Z.ltb_ge. lia. }
  rewrite Hin. reflexivity.
Qed.

Lemma run_within_grant_succeeds (calls : list Call) :
  forall (c : AnyDevice D) (granted : Z),
    budget wf granted c ->
    within_grant granted calls c ->
    Forall succeeded (run calls c) /\ Forall nonnegative calls.
Proof.
  induction calls as [| call rest IH]; intros c granted Hb Hgrant.
  - split; constructor.
  - cbn [run]. destruct call as [maximumLength | amount];
      cbn [within_grant do_call] in *.
    + destruct (readPointer_budget wf laws c maximumLength granted Hb)
        as [Hb' _].
      destruct (readPointer maximumLength c) as [[[p len] c'] sig].
      cbn [fst snd after] in *.
      destruct (IH c' _ Hb' Hgrant) as [Hok Hnn].
      split; constructor; try assumption; [| exact I].
      unfold succeeded. cbn. discriminate.
    + destruct Hgrant as [Hamount Hgrant].
      destruct (advanceReadPointer_budget wf laws c amount granted Hb Hamount)
        as [Hb' _].
      pose proof (advanceReadPointer_budget_succeeds c amount granted
                    Hb Hamount) as Htrue.
      destruct (advanceReadPointer amount c) as [[ok c'] sig].
      cbn [fst snd after] in *. subst ok.
      destruct (IH c' _ Hb' Hgrant) as [Hok Hnn].
      split; constructor; try assumption; [| cbn; lia].
      unfold succeeded. cbn. discriminate.
Qed.

(** X4. From a device that was just constructed or reset, over a QIODevice
    that keeps the laws, a caller who advances only over bytes a
    [readPointer] handed out never sees [advanceReadPointer] fail, in any
    class, and the current values of the signals never decrease. *)
Theorem X4_advancing_within_the_grant_never_fails
  (c : AnyDevice D) (calls : list Call) :
  fresh wf c ->
  within_grant 0 calls c ->
  Forall succeeded (run calls c) /\
  StronglySorted Z.le (map current (signals (run calls c))).
Proof.
  intros Hfresh Hgrant.
  destruct (run_within_grant_succeeds calls c 0
              (fresh_budget wf laws c Hfresh) Hgrant) as [Hok Hnn].
  split; [exact Hok |].
  exact (proj1 (run_signals_sorted calls c Hnn Hok)).
Qed.

End WithinGrant.

Lemma X4_advancing_within_the_grant_never_fails_witness :
  let c := IoDevice hello_device in
  let calls := [CallReadPointer 3; CallAdvance 3; CallReadPointer (-1);
                CallAdvance 7; CallReadPointer (-1); CallAdvance 0] in
  (fresh MemDevice.wf c /\ within_grant 0 calls c) /\
  Forall succeeded (run calls c) /\
  StronglySorted Z.le (map current (signals (run calls c))).
Proof.
  intros c calls.
  assert (Hfresh : fresh MemDevice.wf c).
  { apply fresh_IoDevice. unfold MemDevice.wf. cbn. lia. }
  assert (Hgrant : within_grant 0 calls c).
  { vm_compute. repeat split; discriminate. }
  split; [auto |].
  exact (X4_advancing_within_the_grant_never_fails
           MemDevice.wf MemDevice_lawful c calls Hfresh Hgrant).
Defined.

(** ** Lengths the in-memory classes return *)

Lemma readPointerAtPosition_nonneg (rb : RingBufferImpl.QRingBuffer) :
  forall pos : Z, 0 <= snd (RingBufferImpl.readPointerAtPosition rb pos).
Proof.
  induction rb as [| chunk rest IH]; intros pos;
    cbn [RingBufferImpl.readPointerAtPosition]; [cbn; lia |].
  destruct (qsize chunk >? pos) eqn:E; [| apply IH].
  apply Z.gtb_lt in E. cbn [snd]. lia.
Qed.

(** X5. For the byte-array, buffer and ring-buffer classes, a
    [readPointer] with a maximum length [N >= 0] that computes within
    qint64 changes nothing and emits nothing; at the end it returns
    [(nullptr, -1)], and otherwise a length between 0 and [N]. *)
Theorem X5_in_memory_readPointer_respects_maximumLength
  {D : Type} `{QIODevice D} (c : AnyDevice D) (N : Z) :
  (forall s, c <> IoDevice s) ->
  computes_in_qint64 (CallReadPointer N) c ->
  0 <= N ->
  let r := readPointer N c in
  snd (fst r) = c /\ snd r = [] /\
  (atEnd c = true -> fst (fst r) = (nullptr, -1)) /\
  (atEnd c = false -> 0 <= snd (fst (fst r)) <= N).
Proof.
  intros Hclass _ HN. cbv zeta.
  assert (HN' : negb (N =? -1) = true).
  { apply negb_true_iff, Z.eqb_neq. lia. }
  destruct c as [s | s | s | s]; [| | | exfalso; exact (Hclass s eq_refl)];
    cbn [readPointer atEnd AnyDevice_device any_readPointer any_atEnd
         ByteArrayImpl_device BufferImpl_device RingBufferImpl_device].
  - unfold ByteArrayImpl.readPointer.
    destruct (ByteArrayImpl.atEnd s) eqn:Eend; cbn [fst snd].
    + repeat split; intros; try reflexivity; discriminate.
    + rewrite HN'. unfold ByteArrayImpl.atEnd in Eend.
      rewrite Z.geb_leb in Eend. apply Z.leb_gt in Eend.
      repeat split; intros; try reflexivity; try discriminate; lia.
  - unfold BufferImpl.readPointer, BufferImpl.atEnd,
      ByteArrayImpl.readPointer.
    destruct (ByteArrayImpl.atEnd (BufferImpl.arrayImpl s)) eqn:Eend;
      cbn [fst snd].
    + destruct s; repeat split; intros; try reflexivity; discriminate.
    + rewrite HN'. unfold ByteArrayImpl.atEnd in Eend.
      rewrite Z.geb_leb in Eend. apply Z.leb_gt in Eend.
      destruct s; repeat split; intros; try reflexivity; try discriminate;
        cbn in *; lia.
  - unfold RingBufferImpl.readPointer.
    destruct (RingBufferImpl.atEnd s) eqn:Eend; cbn [fst snd].
    + repeat split; intros; try reflexivity; discriminate.
    + pose proof (readPointerAtPosition_nonneg
                    (RingBufferImpl.ringBuffer s)
                    (RingBufferImpl.currentPosition s)) as Hlen.
      destruct (RingBufferImpl.readPointerAtPosition _ _) as [p len].
      rewrite HN'. cbn [fst snd] in *.
      repeat split; intros; try reflexivity; try discriminate; lia.
Qed.

Lemma X5_in_memory_readPointer_respects_maximumLength_witness :
  let c := RingBufferDevice (D := MemDevice.t)
             (RingBufferImpl.ctor [list_byte_of_string "HELLO";
                                   list_byte_of_string "WORLD"]) in
  computes_in_qint64 (CallReadPointer 3) c /\
  atEnd c = false /\ 0 <= snd (fst (fst (readPointer 3 c))) <= 3.
Proof.
  intros c.
  assert (Hrange : computes_in_qint64 (CallReadPointer 3) c)
    by (unfold c; in_qint64).
  split; [exact Hrange |]. split; [reflexivity |].
  destruct (X5_in_memory_readPointer_respects_maximumLength c 3)
    as (_ & _ & _ & Hlen).
  - intros s. discriminate.
  - exact Hrange.
  - lia.
  - exact (Hlen eq_refl).
Defined.

(** ** Slices of a byte array *)

Lemma qsize_skipn (bytes : QByteArray) (n : Z) :
  0 <= n <= qsize bytes ->
  qsize (skipn (Z.to_nat n) bytes) = qsize bytes - n.
Proof.
  unfold qsize. intros Hn. rewrite length_skipn. lia.
Qed.

Lemma slice_length (bytes : QByteArray) (from len : Z) :
  0 <= from -> 0 <= len -> from + len <= qsize bytes ->
  List.length (slice bytes from len) = Z.to_nat len.
Proof.
  unfold slice, qsize. intros Hf Hl Hb.
  rewrite length_firstn, length_skipn. lia.
Qed.

Lemma slice_then_rest (bytes : QByteArray) (from len : Z) :
  0 <= from -> 0 <= len ->
  slice bytes from len ++ skipn (Z.to_nat (from + len)) bytes
  = skipn (Z.to_nat from) bytes.
Proof.
  unfold slice. intros Hf Hl.
  replace (Z.to_nat (from + len)) with (Z.to_nat len + Z.to_nat from)%nat
    by lia.
  rewrite <- skipn_skipn. apply firstn_skipn.
Qed.

Lemma slice_to_end (bytes : QByteArray) (from len : Z) :
  0 <= from -> from + len = qsize bytes ->
  slice bytes from len = skipn (Z.to_nat from) bytes.
Proof.
  unfold slice, qsize. intros Hf Hl. apply firstn_all2.
  rewrite length_skipn. lia.
Qed.

Lemma skipn_at_end (bytes : QByteArray) (n : Z) :
  qsize bytes <= n -> skipn (Z.to_nat n) bytes = [].
Proof.
  unfold qsize. intros Hn. apply skipn_all2. lia.
Qed.

(** ** Reading a device to its end *)
Section RoundTrip.
Context {S : Type} `{NonContiguousByteDevice S}.
Variable content : QByteArray.
Variable offset : S -> Z.
Variable good : S -> Prop.
Variable maximumLength : Z.

Hypothesis good_offset : forall s, good s -> 0 <= offset s <= qsize content.
Hypothesis good_atEnd :
  forall s, good s -> atEnd s = true -> offset s = qsize content.
Hypothesis good_round :
  forall s, good s -> atEnd s = false ->
    let r := readPointer maximumLength s in
    let len := snd (fst (fst r)) in
    (len = -1 /\ offset s = qsize content /\ atEnd (snd (fst r)) = true)
    \/
    (0 < len /\
     bytes_at (fst (fst (fst r))) len = slice content (offset s) len /\
     offset s + len <= qsize content /\
     let s2 := snd (fst (advanceReadPointer len (snd (fst r)))) in
     good s2 /\ offset s2 = offset s + len).

(** A consumer that has more rounds than bytes are left reads exactly the
    rest of the content and stops at the end. *)
Lemma read_all_by_rest (fuel : nat) :
  forall s,
    good s ->
    (Z.to_nat (qsize content - offset s) < fuel)%nat ->
    fst (read_all_by maximumLength fuel s)
    = skipn (Z.to_nat (offset s)) content /\
    atEnd (snd (read_all_by maximumLength fuel s)) = true.
Proof.
  induction fuel as [| fuel IH]; intros s Hgood Hfuel; [lia |].
  cbn [read_all_by].
  pose proof (good_offset s Hgood) as Hoff.
  destruct (atEnd s) eqn:Eend.
  { cbn [fst snd]. split; [| exact Eend].
    rewrite skipn_at_end; [reflexivity |].
    rewrite (good_atEnd s Hgood Eend). lia. }
  pose proof (good_round s Hgood Eend) as Hround. cbv zeta in Hround.
  destruct (readPointer maximumLength s) as [[[p len] s1] sig1].
  cbn [fst snd] in Hround.
  destruct Hround as [(-> & Hfull & Hend1) | (Hlen & Hbytes & Hin & Hnext)].
  - cbn [Z.eqb Pos.eqb].
    assert (Hstop : read_all_by maximumLength fuel s1 = ([], s1)).
    { destruct fuel; cbn [read_all_by]; [reflexivity |]. now rewrite Hend1. }
    rewrite Hstop. cbn [fst snd]. split; [| exact Hend1].
    rewrite skipn_at_end; [reflexivity | lia].
  - assert (Hne : (len =? -1) = false) by (apply Z.eqb_neq; lia).
    rewrite Hne.
    destruct (advanceReadPointer len s1) as [[ok s2] sig2].
    cbn [fst snd] in Hnext. destruct Hnext as [Hgood2 Hoff2].
    destruct (IH s2 Hgood2) as [Hrest Hend2]; [rewrite Hoff2; lia |].
    destruct (read_all_by maximumLength fuel s2) as [bytes s3].
    cbn [fst snd] in *. split; [| exact Hend2].
    rewrite Hbytes, Hrest, Hoff2. apply slice_then_rest; lia.
Qed.

End RoundTrip.

(** ** Reading a byte array to its end *)

Lemma ByteArrayImpl_round (ba : QByteArray) (maximumLength : Z)
  (s : ByteArrayImpl.t) :
  maximumLength = -1 \/ 0 < maximumLength ->
  ByteArrayCalls.reachable ba s ->
  atEnd s = false ->
  let r := readPointer maximumLength s in
  let len := snd (fst (fst r)) in
  0 < len /\
  bytes_at (fst (fst (fst r))) len
  = slice ba (ByteArrayImpl.currentPosition s) len /\
  ByteArrayImpl.currentPosition s + len <= qsize ba /\
  let s2 := snd (fst (advanceReadPointer len (snd (fst r)))) in
  ByteArrayCalls.reachable ba s2 /\
  ByteArrayImpl.currentPosition s2 = ByteArrayImpl.currentPosition s + len.
Proof.
  intros Hmax Hreach Hend.
  destruct (ByteArrayCalls_reachable_inv ba s Hreach) as [Hba Hpos].
  cbn [readPointer advanceReadPointer atEnd ByteArrayImpl_device] in *.
  unfold ByteArrayImpl.readPointer. rewrite Hend. cbn [fst snd].
  unfold ByteArrayImpl.atEnd, ByteArrayImpl.size in Hend. rewrite Hba in Hend.
  rewrite Z.geb_leb in Hend. apply Z.leb_gt in Hend.
  unfold ByteArrayImpl.size. rewrite Hba.
  set (len := if negb (maximumLength =? -1)
              then Z.min maximumLength
                     (qsize ba - ByteArrayImpl.currentPosition s)
              else qsize ba - ByteArrayImpl.currentPosition s).
  assert (Hlen : 0 < len <= qsize ba - ByteArrayImpl.currentPosition s).
  { subst len. destruct Hmax as [-> | Hmax]; [cbn; lia |].
    replace (maximumLength =? -1) with false
      by (symmetry; apply Z.eqb_neq; lia).
    cbn [negb]. lia. }
  split; [lia |]. split; [reflexivity |]. split; [lia |].
  split; [| reflexivity].
  apply (ByteArrayCalls.reach_call ba s
           (ByteArrayCalls.BA_advanceReadPointer len) Hreach).
  cbn. unfold ByteArrayImpl.size. rewrite Hba. lia.
Qed.

(** X6. From any state a byte-array device reaches by calls that advance
    within the array, a consumer that asks for any length, or for at most
    [maximumLength > 0] bytes a round, and has more rounds than bytes are
    left, reads exactly the bytes from the position to the end of the
    array, in order, and leaves the device at its end. *)
Theorem X6_ByteArrayImpl_is_read_to_the_end
  (ba : QByteArray) (s : ByteArrayImpl.t) (maximumLength : Z) (fuel : nat) :
  ByteArrayCalls.reachable ba s ->
  maximumLength = -1 \/ 0 < maximumLength ->
  (Z.to_nat (qsize ba - ByteArrayImpl.currentPosition s) < fuel)%nat ->
  fst (read_all_by maximumLength fuel s)
  = skipn (Z.to_nat (ByteArrayImpl.currentPosition s)) ba /\
  atEnd (snd (read_all_by maximumLength fuel s)) = true.
Proof.
  intros Hreach Hmax Hfuel.
  apply (read_all_by_rest ba ByteArrayImpl.currentPosition
           (ByteArrayCalls.reachable ba) maximumLength); try assumption.
  - intros s0 H0. exact (proj2 (ByteArrayCalls_reachable_inv ba s0 H0)).
  - intros s0 H0 Hend.
    destruct (ByteArrayCalls_reachable_inv ba s0 H0) as [Hba Hpos].
    apply ByteArrayImpl_atEnd_iff in Hend.
    unfold ByteArrayImpl.size in Hend. rewrite Hba in Hend. lia.
  - intros s0 H0 Hend. right.
    exact (ByteArrayImpl_round ba maximumLength s0 Hmax H0 Hend).
Qed.

Lemma X6_ByteArrayImpl_is_read_to_the_end_witness :
  let s := ByteArrayCalls.after_call (ByteArrayCalls.BA_advanceReadPointer 4)
             (ByteArrayImpl.ctor HELLOWORLD) in
  ByteArrayCalls.reachable HELLOWORLD s /\
  fst (read_all_by 4 7 s) = list_byte_of_string "OWORLD".
Proof.
  intros s.
  assert (Hreach : ByteArrayCalls.reachable HELLOWORLD s).
  { apply ByteArrayCalls.reach_call; [apply ByteArrayCalls.reach_ctor |].
    vm_compute. split; discriminate. }
  split; [exact Hreach |].
  exact (proj1 (X6_ByteArrayImpl_is_read_to_the_end HELLOWORLD s 4 7 Hreach
                  (or_intror eq_refl) ltac:(vm_compute; lia))).
Defined.

(** ** The ring buffer, chunk by chunk *)

Lemma qsize_app (a b : QByteArray) : qsize (a ++ b) = qsize a + qsize b.
Proof. unfold qsize. rewrite length_app. lia. Qed.

Lemma qsize_concat (rb : RingBufferImpl.QRingBuffer) :
  qsize (List.concat rb) = RingBufferImpl.rb_size rb.
Proof.
  induction rb as [| chunk rest IH]; [reflexivity |].
  cbn [List.concat]. rewrite qsize_app, rb_size_cons, IH. reflexivity.
Qed.

Lemma slice_slice (bytes : QByteArray) (from len len' : Z) :
  len' <= len ->
  firstn (Z.to_nat len') (slice bytes from len) = slice bytes from len'.
Proof.
  unfold slice. intros Hle. rewrite firstn_firstn. f_equal. lia.
Qed.

(** The run the ring buffer gives at a position lies in one chunk, reaches
    to the end of that chunk and holds the bytes of the buffer at that
    position. *)
Lemma readPointerAtPosition_run (rb : RingBufferImpl.QRingBuffer) :
  forall pos : Z,
    0 <= pos < RingBufferImpl.rb_size rb ->
    exists chunk off,
      RingBufferImpl.readPointerAtPosition rb pos
      = (ptr_at chunk off, qsize chunk - off) /\
      In chunk rb /\ 0 <= off < qsize chunk /\
      slice chunk off (qsize chunk - off)
      = slice (List.concat rb) pos (qsize chunk - off).
Proof.
  induction rb as [| chunk rest IH]; intros pos Hpos; [cbn in Hpos; lia |].
  rewrite rb_size_cons in Hpos.
  cbn [RingBufferImpl.readPointerAtPosition List.concat].
  destruct (qsize chunk >? pos) eqn:E.
  - apply Z.gtb_lt in E. exists chunk, pos.
    split; [reflexivity |]. split; [left; reflexivity |]. split; [lia |].
    unfold slice, qsize in *.
    rewrite skipn_app, firstn_app, length_skipn.
    replace (Z.to_nat pos - List.length chunk)%nat with 0%nat by lia.
    replace (Z.to_nat (Z.of_nat (List.length chunk) - pos)
             - (List.length chunk - Z.to_nat pos))%nat with 0%nat by lia.
    cbn [skipn firstn]. now rewrite app_nil_r.
  - rewrite Z.gtb_ltb in E. apply Z.ltb_ge in E.
    destruct (IH (pos - qsize chunk)) as (c & off & Hrun & Hin & Hoff & Hbytes);
      [lia |].
    exists c, off. split; [exact Hrun |]. split; [right; exact Hin |].
    split; [exact Hoff |]. rewrite Hbytes.
    unfold slice, qsize in *. f_equal.
    rewrite skipn_app, (skipn_all2 (n := Z.to_nat pos) chunk) by lia.
    cbn [app]. f_equal. lia.
Qed.

(** The pointer and length [readPointer] returns inside the ring
    buffer. *)
Lemma RingBufferImpl_readPointer_run
  (s : RingBufferImpl.t) (maximumLength : Z) :
  0 <= RingBufferImpl.currentPosition s < RingBufferImpl.size s ->
  maximumLength = -1 \/ 0 < maximumLength ->
  let r := RingBufferImpl.readPointer maximumLength s in
  let len := snd (fst (fst r)) in
  exists chunk off,
    fst (fst (fst r)) = ptr_at chunk off /\
    In chunk (RingBufferImpl.ringBuffer s) /\
    0 <= off /\ 0 < len /\ off + len <= qsize chunk /\
    (0 < maximumLength -> len <= maximumLength) /\
    bytes_at (fst (fst (fst r))) len
    = slice (List.concat (RingBufferImpl.ringBuffer s))
        (RingBufferImpl.currentPosition s) len.
Proof.
  intros Hpos Hmax. cbv zeta. unfold RingBufferImpl.readPointer.
  assert (Hend : RingBufferImpl.atEnd s = false).
  { unfold RingBufferImpl.atEnd. rewrite Z.geb_leb. apply Z.leb_gt. lia. }
  rewrite Hend.
  destruct (readPointerAtPosition_run (RingBufferImpl.ringBuffer s)
              (RingBufferImpl.currentPosition s) Hpos)
    as (chunk & off & Hrun & Hin & Hoff & Hbytes).
  rewrite Hrun. cbn [fst snd]. exists chunk, off.
  set (len := if negb (maximumLength =? -1)
              then Z.min (qsize chunk - off) maximumLength
              else qsize chunk - off).
  assert (Hlen : 0 < len <= qsize chunk - off /\
                 (0 < maximumLength -> len <= maximumLength)).
  { subst len. destruct Hmax as [-> | Hmax]; [cbn; lia |].
    replace (maximumLength =? -1) with false
      by (symmetry; apply Z.eqb_neq; lia).
    cbn [negb]. lia. }
  destruct Hlen as [Hlen Hclip].
  split; [reflexivity |]. split; [exact Hin |]. split; [lia |].
  split; [lia |]. split; [lia |]. split; [exact Hclip |].
  cbn [bytes_at].
  change (firstn (Z.to_nat len) (skipn (Z.to_nat off) chunk))
    with (slice chunk off len).
  rewrite <- (slice_slice chunk off (qsize chunk - off) len) by lia.
  rewrite Hbytes. apply slice_slice. lia.
Qed.


(** X7. For a ring-buffer device whose position is inside the buffer,
    [readPointer], asked for any length or for at most
    [maximumLength > 0] bytes, returns a pointer into one chunk of the
    ring buffer with a positive length that ends within that chunk and is
    at most [maximumLength], and the bytes there are the bytes of the
    whole buffer at the position. *)
Theorem X7_RingBufferImpl_readPointer_stays_in_a_chunk
  (s : RingBufferImpl.t) (maximumLength : Z) :
  0 <= RingBufferImpl.currentPosition s < RingBufferImpl.size s ->
  maximumLength = -1 \/ 0 < maximumLength ->
  let r := RingBufferImpl.readPointer maximumLength s in
  let len := snd (fst (fst r)) in
  exists chunk off,
    fst (fst (fst r)) = ptr_at chunk off /\
    In chunk (RingBufferImpl.ringBuffer s) /\
    0 <= off /\ 0 < len /\ off + len <= qsize chunk /\
    (0 < maximumLength -> len <= maximumLength) /\
    bytes_at (fst (fst (fst r))) len
    = slice (List.concat (RingBufferImpl.ringBuffer s))
        (RingBufferImpl.currentPosition s) len.
Proof.
  exact (RingBufferImpl_readPointer_run s maximumLength).
Qed.

Lemma X7_RingBufferImpl_readPointer_stays_in_a_chunk_witness :
  let s := RingBufferImpl.Build_t [list_byte_of_string "HELLO";
                                   list_byte_of_string "WORLD"] 3 in
  RingBufferImpl.readPointer (-1) s
  = ((ptr_at (list_byte_of_string "HELLO") 3, 2), s, []) /\
  bytes_at (fst (fst (fst (RingBufferImpl.readPointer (-1) s)))) 2
  = slice HELLOWORLD 3 2.
Proof.
  intros s. split; [reflexivity |].
  destruct (X7_RingBufferImpl_readPointer_stays_in_a_chunk s (-1))
    as (chunk & off & _ & _ & _ & _ & _ & _ & Hbytes).
  - vm_compute. split; [discriminate | reflexivity].
  - left. reflexivity.
  - exact Hbytes.
Defined.

Lemma RingBufferImpl_readPointer_state
  (maximumLength : Z) (s : RingBufferImpl.t) :
  snd (fst (RingBufferImpl.readPointer maximumLength s)) = s.
Proof.
  unfold RingBufferImpl.readPointer.
  destruct (RingBufferImpl.atEnd s); [reflexivity |].
  destruct (RingBufferImpl.readPointerAtPosition _ _). reflexivity.
Qed.

Lemma RingBufferImpl_readPointer_within
  (maximumLength : Z) (s : RingBufferImpl.t) :
  RingBufferImpl.currentPosition s < RingBufferImpl.size s ->
  snd (fst (fst (RingBufferImpl.readPointer maximumLength s)))
  <= RingBufferImpl.size s - RingBufferImpl.currentPosition s.
Proof.
  intros Hpos. unfold RingBufferImpl.readPointer.
  replace (RingBufferImpl.atEnd s) with false.
  - pose proof (readPointerAtPosition_within (RingBufferImpl.ringBuffer s)
                  (RingBufferImpl.currentPosition s) Hpos) as Hrun.
    destruct (RingBufferImpl.readPointerAtPosition _ _) as [p len0].
    cbn [fst snd] in *. unfold RingBufferImpl.size. destruct (negb _); lia.
  - symmetry. unfold RingBufferImpl.atEnd. rewrite Z.geb_leb.
    apply Z.leb_gt. exact Hpos.
Qed.

(** Reading a ring-buffer device to the end. *)
Lemma RingBufferImpl_read_all_by
  (s : RingBufferImpl.t) (maximumLength : Z) (fuel : nat) :
  0 <= RingBufferImpl.currentPosition s <= RingBufferImpl.size s ->
  maximumLength = -1 \/ 0 < maximumLength ->
  (Z.to_nat (RingBufferImpl.size s - RingBufferImpl.currentPosition s)
   < fuel)%nat ->
  fst (read_all_by maximumLength fuel s)
  = skipn (Z.to_nat (RingBufferImpl.currentPosition s))
      (List.concat (RingBufferImpl.ringBuffer s)) /\
  atEnd (snd (read_all_by maximumLength fuel s)) = true.
Proof.
  intros Hpos Hmax Hfuel.
  set (rb := RingBufferImpl.ringBuffer s).
  apply (read_all_by_rest (List.concat rb) RingBufferImpl.currentPosition
           (fun s0 => RingBufferImpl.ringBuffer s0 = rb /\
                      0 <= RingBufferImpl.currentPosition s0
                      <= RingBufferImpl.rb_size rb) maximumLength).
  - intros s0 [_ H0]. rewrite qsize_concat. exact H0.
  - intros s0 [Hrb H0] Hend. rewrite qsize_concat.
    cbn in Hend. unfold RingBufferImpl.atEnd, RingBufferImpl.size in Hend.
    rewrite Hrb, Z.geb_leb in Hend. apply Z.leb_le in Hend. lia.
  - intros s0 [Hrb H0] Hend. right.
    cbn [readPointer advanceReadPointer atEnd RingBufferImpl_device] in *.
    unfold RingBufferImpl.atEnd, RingBufferImpl.size in Hend.
    rewrite Hrb, Z.geb_leb in Hend. apply Z.leb_gt in Hend.
    destruct (RingBufferImpl_readPointer_run s0 maximumLength)
      as (chunk & off & Hp & Hin & Hoff & Hlen & Hfit & _ & Hbytes);
      [unfold RingBufferImpl.size; rewrite Hrb; lia | exact Hmax |].
    rewrite Hrb in Hbytes.
    pose proof (RingBufferImpl_readPointer_state maximumLength s0) as Hstate.
    pose proof (RingBufferImpl_readPointer_within maximumLength s0) as Hbound.
    unfold RingBufferImpl.size in Hbound. rewrite Hrb in Hbound.
    specialize (Hbound Hend).
    rewrite Hstate. rewrite qsize_concat.
    split; [exact Hlen |]. split; [exact Hbytes |]. split; [lia |].
    cbn. split; [split; [exact Hrb | lia] | reflexivity].
  - split; [reflexivity | exact Hpos].
  - rewrite qsize_concat. exact Hfuel.
Qed.


(** X8. A consumer of a ring-buffer device whose position is within the
    buffer, with more rounds than bytes are left, reads exactly the bytes
    of the chunks from the position on, in order, and leaves the device at
    its end. *)
Theorem X8_RingBufferImpl_is_read_to_the_end
  (s : RingBufferImpl.t) (maximumLength : Z) (fuel : nat) :
  0 <= RingBufferImpl.currentPosition s <= RingBufferImpl.size s ->
  maximumLength = -1 \/ 0 < maximumLength ->
  (Z.to_nat (RingBufferImpl.size s - RingBufferImpl.currentPosition s)
   < fuel)%nat ->
  fst (read_all_by maximumLength fuel s)
  = skipn (Z.to_nat (RingBufferImpl.currentPosition s))
      (List.concat (RingBufferImpl.ringBuffer s)) /\
  atEnd (snd (read_all_by maximumLength fuel s)) = true.
Proof.
  exact (RingBufferImpl_read_all_by s maximumLength fuel).
Qed.

Lemma X8_RingBufferImpl_is_read_to_the_end_witness :
  let s := RingBufferImpl.ctor [list_byte_of_string "HEL"; [];
                                list_byte_of_string "LOWORLD"] in
  fst (read_all_by 2 11 s) = HELLOWORLD.
Proof.
  intros s.
  exact (proj1 (X8_RingBufferImpl_is_read_to_the_end s 2 11
                  ltac:(vm_compute; split; discriminate)
                  (or_intror eq_refl) ltac:(vm_compute; lia))).
Defined.

(** ** The device over the in-memory QIODevice *)

Lemma MemDevice_getChars (k : nat) :
  forall d : MemDevice.t,
    MemDevice.position d + Z.of_nat k <= qsize (MemDevice.content d) ->
    IoDeviceImpl.getChars k d
    = Some (MemDevice.move_to (MemDevice.position d + Z.of_nat k) d).
Proof.
  induction k as [| k IH]; intros d Hk.
  - cbn. f_equal. destruct d. unfold MemDevice.move_to. cbn. f_equal. lia.
  - cbn [IoDeviceImpl.getChars dev_getChar MemDevice_QIODevice].
    unfold MemDevice.getChar, MemDevice.bytesAvailable.
    replace (qsize (MemDevice.content d) - MemDevice.position d <=? 0)
      with false by (symmetry; apply Z.leb_gt; lia).
    rewrite IH by (cbn; lia).
    f_equal. unfold MemDevice.move_to. cbn. f_equal. lia.
Qed.

Lemma firstn_store (data : list byte) (buf : QByteArray) :
  firstn (List.length data) (IoDeviceImpl.store data buf) = data.
Proof.
  unfold IoDeviceImpl.store.
  rewrite firstn_app, firstn_all, Nat.sub_diag. cbn. apply app_nil_r.
Qed.

Lemma streaming_offset_in_content
  (content : QByteArray) (s : IoDeviceImpl.t MemDevice.t) :
  streaming content s ->
  IoDeviceImpl.initialPosition s <= stream_offset s <= qsize content.
Proof.
  intros [? ? ? ? ? ? ? ? ? ?]. unfold stream_offset in *. lia.
Qed.

Lemma streaming_ctor (content : QByteArray) (p : Z) :
  0 <= p <= qsize content ->
  streaming content
    (IoDeviceImpl.ctor (MemDevice.move_to p (MemDevice.open content))).
Proof.
  intros Hp. constructor; unfold stream_offset; cbn; try lia; try reflexivity.
Qed.

(** What [readPointer] does on a device in step with its source. *)
Lemma streaming_readPointer
  (content : QByteArray) (s : IoDeviceImpl.t MemDevice.t)
  (maximumLength : Z) :
  streaming content s ->
  -1 <= maximumLength ->
  let r := IoDeviceImpl.readPointer maximumLength s in
  let len := snd (fst (fst r)) in
  streaming content (snd (fst r)) /\
  stream_offset (snd (fst r)) = stream_offset s /\
  ((len = -1 /\ fst (fst (fst r)) = nullptr /\
    IoDeviceImpl.eof (snd (fst r)) = true)
   \/
   (0 <= len /\ (maximumLength <> 0 -> 0 < len) /\
    bytes_at (fst (fst (fst r))) len = slice content (stream_offset s) len /\
    stream_offset s + len <= qsize content /\
    IoDeviceImpl.eof (snd (fst r)) = false)).
Proof.
  intros Hs Hmax. cbv zeta.
  pose proof (streaming_offset_in_content content s Hs) as Hoff.
  destruct Hs as [Hc Hr Hcap Hinit Hwin Htot Hahead Hsrc Hbuf Heof].
  unfold IoDeviceImpl.readPointer.
  destruct (IoDeviceImpl.eof s) eqn:Ee.
  { cbn [fst snd]. split; [constructor; auto; congruence |].
    split; [reflexivity |]. left. auto. }
  fields. destruct (_ >? 0) eqn:Eb.
  { apply Z.gtb_lt in Eb. cbn [fst snd].
    destruct Hbuf as (buf & Hsome & Hfirst); [lia |].
    rewrite Hsome in *.
    assert (Hsame : IoDeviceImpl.set_currentReadBuffer (Some buf) s = s).
    { destruct s; cbn in *. subst. reflexivity. }
    rewrite Hsame.
    split; [constructor; auto; try congruence; eauto |].
    split; [reflexivity |]. right.
    split; [lia |]. split; [lia |]. unfold stream_offset in *.
    split; [| split; [lia | exact Ee]].
    cbn [bytes_at].
    set (a := IoDeviceImpl.currentReadBufferAmount s) in *.
    set (q := IoDeviceImpl.currentReadBufferPosition s) in *.
    replace (firstn (Z.to_nat (a - q)) (skipn (Z.to_nat q) buf))
      with (skipn (Z.to_nat q) (firstn (Z.to_nat a) buf)).
    - rewrite Hfirst. unfold slice. rewrite skipn_firstn_comm, skipn_skipn.
      f_equal; [lia |]. f_equal. lia.
    - rewrite skipn_firstn_comm. f_equal. lia. }
  rewrite Z.gtb_ltb in Eb. apply Z.ltb_ge in Eb.
  set (buf0 := match IoDeviceImpl.currentReadBuffer s with
               | Some b => b
               | None => IoDeviceImpl.zeroed (IoDeviceImpl.currentReadBufferSize s)
               end).
  set (k := Z.min (if maximumLength =? -1
                   then IoDeviceImpl.currentReadBufferSize s
                   else maximumLength)
                  (IoDeviceImpl.currentReadBufferSize s)).
  assert (Hk : 0 <= k /\ (maximumLength <> 0 -> 0 < k)).
  { subst k. destruct (maximumLength =? -1) eqn:Em.
    - lia.
    - apply Z.eqb_neq in Em. lia. }
  cbn [dev_read dev_atEnd dev_isSequential MemDevice_QIODevice].
  unfold MemDevice.read, MemDevice.bytesAvailable.
  replace (k <? 0) with false by (symmetry; apply Z.ltb_ge; lia).
  rewrite Hc, Hr. unfold stream_offset in *.
  set (p := MemDevice.position (IoDeviceImpl.device s)) in *.
  destruct (qsize content - p <=? 0) eqn:Ea.
  - apply Z.leb_le in Ea.
    unfold MemDevice.atEnd, MemDevice.isSequential, MemDevice.bytesAvailable.
    rewrite Hc, Hr. fold p.
    replace (qsize content - p <=? 0) with true
      by (symmetry; apply Z.leb_le; lia).
    cbn [Z.eqb orb andb negb fst snd]. fields.
    split; [constructor; unfold stream_offset; fields; auto; try lia;
            intros; lia |].
    split; [reflexivity |]. left. auto.
  - apply Z.leb_gt in Ea.
    set (n := Z.min k (qsize content - p)).
    assert (Hn : 0 <= n <= qsize content - p /\ (maximumLength <> 0 -> 0 < n))
      by (subst n; lia).
    set (data := firstn (Z.to_nat n) (skipn (Z.to_nat p) content)).
    assert (Hdata : List.length data = Z.to_nat n).
    { subst data. unfold qsize in *. rewrite length_firstn, length_skipn. lia. }
    unfold MemDevice.atEnd, MemDevice.isSequential, MemDevice.bytesAvailable.
    cbn [MemDevice.move_to MemDevice.content MemDevice.position
         MemDevice.sequential].
    rewrite Hc, Hr.
    replace ((n =? -1)
             || ((n =? 0) && (qsize content - (p + n) <=? 0) && negb false))
      with false.
    2:{ symmetry. apply orb_false_iff. split; [apply Z.eqb_neq; lia |].
        destruct (n =? 0) eqn:E0; [| reflexivity].
        apply Z.eqb_eq in E0. cbn [andb].
        apply andb_false_iff. left. apply Z.leb_gt. lia. }
    cbn [fst snd]. fields.
    split; [| split; [lia |]].
    + constructor; unfold stream_offset; fields;
        cbn [MemDevice.move_to MemDevice.content
             MemDevice.position MemDevice.sequential];
        auto; try lia; try congruence.
      intros Hpos. exists (IoDeviceImpl.store data buf0).
      split; [reflexivity |].
      rewrite <- Hdata, firstn_store. subst data. unfold slice.
      f_equal. f_equal. lia.
    + right. split; [lia |]. split; [tauto |].
      split; [| split; [lia | exact Ee]].
      cbn [bytes_at]. cbn [Z.to_nat skipn].
      rewrite <- Hdata, firstn_store. subst data. unfold slice.
      f_equal. f_equal. lia.
Qed.

(** What [advanceReadPointer] does on a device in step with its source,
    for an amount that stays within the content: also past the buffer. *)
Lemma streaming_advance
  (content : QByteArray) (s : IoDeviceImpl.t MemDevice.t) (amount : Z) :
  streaming content s ->
  0 <= amount ->
  stream_offset s + amount <= qsize content ->
  let r := IoDeviceImpl.advanceReadPointer amount s in
  fst (fst r) = true /\
  streaming content (snd (fst r)) /\
  stream_offset (snd (fst r)) = stream_offset s + amount.
Proof.
  intros Hs Hamount Hin. cbv zeta.
  destruct Hs as [Hc Hr Hcap Hinit Hwin Htot Hahead Hsrc Hbuf Heof].
  unfold stream_offset in *.
  destruct (Z_le_gt_dec (IoDeviceImpl.currentReadBufferPosition s + amount)
              (IoDeviceImpl.currentReadBufferAmount s)) as [Hfit | Hover].
  - unfold IoDeviceImpl.advanceReadPointer. fields.
    replace (IoDeviceImpl.currentReadBufferPosition s + amount
             >? IoDeviceImpl.currentReadBufferAmount s) with false
      by (symmetry; rewrite Z.gtb_ltb; apply Z.ltb_ge; lia).
    cbn [fst snd]. split; [reflexivity |]. split; [| fields; lia].
    constructor; unfold stream_offset; fields; auto; try lia.
    + intros Hlt. destruct Hbuf as (buf & Hsome & Hfirst); [lia |]. eauto.
    + intros He. specialize (Heof He). lia.
  - set (over := IoDeviceImpl.currentReadBufferPosition s + amount
                 - IoDeviceImpl.currentReadBufferAmount s).
    assert (Hskip : IoDeviceImpl.getChars (Z.to_nat over) (IoDeviceImpl.device s)
                    = Some (MemDevice.move_to
                              (MemDevice.position (IoDeviceImpl.device s) + over)
                              (IoDeviceImpl.device s))).
    { rewrite MemDevice_getChars by (rewrite Hc; subst over; lia).
      f_equal. f_equal. subst over. lia. }
    rewrite (advanceReadPointer_skips s amount _ ltac:(fold over; lia) Hskip).
    cbn [fst snd]. split; [reflexivity |]. split; [| fields; lia].
    constructor; unfold stream_offset; fields;
      cbn [MemDevice.move_to MemDevice.content MemDevice.position
           MemDevice.sequential]; auto; try lia.
    intros He. specialize (Heof He). lia.
Qed.

Lemma streaming_run (content : QByteArray) (calls : list Call) :
  forall s : IoDeviceImpl.t MemDevice.t,
    streaming content s ->
    Forall sensible calls ->
    Forall nonnegative calls ->
    stream_offset s + advanced calls <= qsize content ->
    Forall (in_step content) (run calls s) /\
    streaming content (final s (run calls s)) /\
    stream_offset (final s (run calls s)) = stream_offset s + advanced calls.
Proof.
  induction calls as [| call rest IH]; intros s Hs Hsens Hnn Hin.
  - cbn. split; [constructor |]. split; [exact Hs | lia].
  - inversion Hsens as [| ? ? Hsens1 Hsens2]; subst.
    inversion Hnn as [| ? ? Hnn1 Hnn2]; subst.
    assert (Hrest : 0 <= advanced rest).
    { clear - Hnn2. induction Hnn2 as [| c l Hc _ IHl]; [cbn; lia |].
      unfold advanced in *. cbn [fold_right]. destruct c; cbn in Hc; lia. }
    cbn [run]. rewrite final_cons.
    destruct call as [maximumLength | amount]; cbn [do_call].
    + destruct (streaming_readPointer content s maximumLength Hs Hsens1)
        as (Hs' & Hoff & Hres).
      cbn [readPointer IoDeviceImpl_device].
      destruct (IoDeviceImpl.readPointer maximumLength s)
        as [[[p len] s'] sig].
      cbn [fst snd after] in *.
      destruct (IH s' Hs' Hsens2 Hnn2) as (Hsteps & Hfinal & Hsum).
      { rewrite Hoff. unfold advanced in *. cbn [fold_right] in Hin. lia. }
      split; [| split; [exact Hfinal |]].
      * constructor; [| exact Hsteps]. unfold in_step. cbn [ret after].
        rewrite Hoff. destruct Hres as [(-> & -> & _) | (H0 & _ & Hb & Hle & _)];
          [left; auto | right; auto].
      * rewrite Hsum, Hoff. unfold advanced. cbn [fold_right]. lia.
    + cbn in Hnn1.
      destruct (streaming_advance content s amount Hs Hnn1)
        as (Hok & Hs' & Hoff).
      { unfold advanced in *. cbn [fold_right] in Hin. lia. }
      cbn [advanceReadPointer IoDeviceImpl_device].
      destruct (IoDeviceImpl.advanceReadPointer amount s) as [[ok s'] sig].
      cbn [fst snd after] in *.
      destruct (IH s' Hs' Hsens2 Hnn2) as (Hsteps & Hfinal & Hsum).
      { rewrite Hoff. unfold advanced in *. cbn [fold_right] in Hin. lia. }
      split; [| split; [exact Hfinal |]].
      * constructor; [exact Hok | exact Hsteps].
      * rewrite Hsum, Hoff. unfold advanced. cbn [fold_right]. lia.
Qed.

(** X9. A device over a random-access source holding [content] stays in
    step with it: in every sequence of [readPointer] calls (asking for any
    length or a non-negative one) and [advanceReadPointer] calls by
    non-negative amounts that stay within the content, also amounts that
    go past what the read buffer holds, every advancement succeeds and
    every [readPointer] returns -1 or the bytes of the content at the
    offset advanced to so far. *)
Theorem X9_streaming_device_follows_its_source
  (content : QByteArray) (p : Z) (calls : list Call) :
  0 <= p <= qsize content ->
  Forall sensible calls ->
  Forall nonnegative calls ->
  p + advanced calls <= qsize content ->
  let s := IoDeviceImpl.ctor (MemDevice.move_to p (MemDevice.open content)) in
  Forall (in_step content) (run calls s) /\
  stream_offset (final s (run calls s)) = p + advanced calls.
Proof.
  intros Hp Hsens Hnn Hin s.
  destruct (streaming_run content calls s (streaming_ctor content p Hp)
              Hsens Hnn) as (Hsteps & _ & Hsum).
  - unfold stream_offset. cbn. lia.
  - split; [exact Hsteps |]. rewrite Hsum. unfold stream_offset. cbn. lia.
Qed.

Lemma X9_streaming_device_follows_its_source_witness :
  let calls := [CallReadPointer 4; CallAdvance 7; CallReadPointer (-1)] in
  let s := IoDeviceImpl.ctor (MemDevice.move_to 0 (MemDevice.open HELLOWORLD)) in
  Forall (in_step HELLOWORLD) (run calls s) /\
  map observe (run calls s)
  = [Borrowed 4 (list_byte_of_string "HELL"); Advanced true;
     Borrowed 3 (list_byte_of_string "RLD")].
Proof.
  intros calls s. split; [| reflexivity].
  refine (proj1 (X9_streaming_device_follows_its_source HELLOWORLD 0 calls
                   _ _ _ _)).
  - vm_compute. split; discriminate.
  - repeat constructor; cbn; lia.
  - repeat constructor; cbn; lia.
  - vm_compute. discriminate.
Defined.

(** Reading a device in step with its source to the end. *)
Lemma streaming_read_all_by
  (content : QByteArray) (s : IoDeviceImpl.t MemDevice.t)
  (maximumLength : Z) (fuel : nat) :
  streaming content s ->
  maximumLength = -1 \/ 0 < maximumLength ->
  (Z.to_nat (qsize content - stream_offset s) < fuel)%nat ->
  fst (read_all_by maximumLength fuel s)
  = skipn (Z.to_nat (stream_offset s)) content /\
  atEnd (snd (read_all_by maximumLength fuel s)) = true.
Proof.
  intros Hs Hmax Hfuel.
  apply (read_all_by_rest content stream_offset (streaming content)
           maximumLength); try assumption.
  - intros s0 H0. pose proof (streaming_offset_in_content content s0 H0).
    pose proof (st_initial content s0 H0). lia.
  - intros s0 H0 Hend. exact (st_eof content s0 H0 Hend).
  - intros s0 H0 Hend.
    destruct (streaming_readPointer content s0 maximumLength H0 ltac:(lia))
      as (H1 & Hoff & Hres).
    cbn [readPointer advanceReadPointer atEnd IoDeviceImpl_device] in *.
    destruct (IoDeviceImpl.readPointer maximumLength s0)
      as [[[p len] s1] sig].
    cbn [fst snd] in *.
    destruct Hres as [(-> & _ & He) | (H0len & Hpos & Hb & Hle & _)].
    + left. split; [reflexivity |]. split; [| exact He].
      rewrite <- Hoff. exact (st_eof content s1 H1 He).
    + right. split; [apply Hpos; lia |]. split; [exact Hb |].
      split; [exact Hle |].
      destruct (streaming_advance content s1 len H1 H0len ltac:(lia))
        as (_ & H2 & Hoff2).
      split; [exact H2 | lia].
Qed.


(** X10. A consumer of a device in step with a random-access source, with
    more rounds than bytes are left, reads exactly the content from the
    offset advanced to so far to its end, in order, and leaves the device
    at its end, whatever the size of the read buffer and whether it asks
    for any length or for at most [maximumLength > 0] bytes a round. *)
Theorem X10_streaming_device_is_read_to_the_end
  (content : QByteArray) (s : IoDeviceImpl.t MemDevice.t)
  (maximumLength : Z) (fuel : nat) :
  streaming content s ->
  maximumLength = -1 \/ 0 < maximumLength ->
  (Z.to_nat (qsize content - stream_offset s) < fuel)%nat ->
  fst (read_all_by maximumLength fuel s)
  = skipn (Z.to_nat (stream_offset s)) content /\
  atEnd (snd (read_all_by maximumLength fuel s)) = true.
Proof.
  exact (streaming_read_all_by content s maximumLength fuel).
Qed.

Lemma X10_streaming_device_is_read_to_the_end_witness :
  let s := after_run [CallReadPointer (-1); CallAdvance 3] hello_device4 in
  streaming HELLOWORLD s /\
  fst (read_all_by 3 8 s) = list_byte_of_string "LOWORLD".
Proof.
  intros s.
  assert (Hs : streaming HELLOWORLD s).
  { constructor; try reflexivity; try (vm_compute; intuition discriminate).
    intros _. eexists. split; reflexivity. }
  split; [exact Hs |].
  exact (proj1 (X10_streaming_device_is_read_to_the_end HELLOWORLD s 3 8 Hs
                  (or_intror eq_refl) ltac:(vm_compute; lia))).
Defined.

(** X11. A device in step with a random-access source can always be
    reset: [reset] returns true, the device is in step again at its
    initial position, and a consumer then reads the content from the
    initial position to the end. *)
Theorem X11_streaming_device_replays_after_reset
  (content : QByteArray) (s : IoDeviceImpl.t MemDevice.t)
  (maximumLength : Z) (fuel : nat) :
  streaming content s ->
  maximumLength = -1 \/ 0 < maximumLength ->
  (Z.to_nat (qsize content - IoDeviceImpl.initialPosition s) < fuel)%nat ->
  fst (IoDeviceImpl.reset s) = true /\
  streaming content (snd (IoDeviceImpl.reset s)) /\
  stream_offset (snd (IoDeviceImpl.reset s)) = IoDeviceImpl.initialPosition s /\
  fst (read_all_by maximumLength fuel (snd (IoDeviceImpl.reset s)))
  = skipn (Z.to_nat (IoDeviceImpl.initialPosition s)) content.
Proof.
  intros Hs Hmax Hfuel.
  pose proof (streaming_offset_in_content content s Hs) as Hoff.
  assert (Hreset : fst (IoDeviceImpl.reset s) = true /\
                   streaming content (snd (IoDeviceImpl.reset s)) /\
                   stream_offset (snd (IoDeviceImpl.reset s))
                   = IoDeviceImpl.initialPosition s).
  { destruct Hs as [Hc Hr Hcap Hinit Hwin Htot Hahead Hsrc Hbuf Heof].
    unfold IoDeviceImpl.reset.
    cbn [dev_reset dev_seek MemDevice_QIODevice].
    unfold MemDevice.reset, MemDevice.seek. rewrite Hr, Hc.
    destruct (IoDeviceImpl.initialPosition s =? 0) eqn:E0.
    - apply Z.eqb_eq in E0.
      replace ((0 <=? 0) && (0 <=? qsize content)) with true
        by (symmetry; apply andb_true_iff; split; apply Z.leb_le;
            [lia | apply qsize_nonneg]).
      cbn [fst snd]. split; [reflexivity |].
      split; [| unfold stream_offset; fields; lia].
      pose proof (qsize_nonneg content).
      constructor; unfold stream_offset; fields;
        cbn [MemDevice.move_to MemDevice.content MemDevice.position
             MemDevice.sequential]; auto; try lia; discriminate.
    - replace ((0 <=? IoDeviceImpl.initialPosition s)
               && (IoDeviceImpl.initialPosition s <=? qsize content))
        with true
        by (symmetry; apply andb_true_iff; split; apply Z.leb_le; lia).
      cbn [fst snd]. split; [reflexivity |].
      split; [| unfold stream_offset; fields; lia].
      constructor; unfold stream_offset; fields;
        cbn [MemDevice.move_to MemDevice.content MemDevice.position
             MemDevice.sequential]; auto; try lia; discriminate. }
  destruct Hreset as (Hok & Hs' & Hoff').
  split; [exact Hok |]. split; [exact Hs' |]. split; [exact Hoff' |].
  rewrite <- Hoff'.
  apply (streaming_read_all_by content _ maximumLength fuel Hs' Hmax).
  rewrite Hoff'. exact Hfuel.
Qed.

Lemma X11_streaming_device_replays_after_reset_witness :
  let s := after_run [CallReadPointer (-1); CallAdvance 7;
                      CallReadPointer (-1)] hello_device4 in
  streaming HELLOWORLD s /\
  fst (IoDeviceImpl.reset s) = true /\
  fst (read_all_by (-1) 11 (snd (IoDeviceImpl.reset s))) = HELLOWORLD.
Proof.
  intros s.
  assert (Hs : streaming HELLOWORLD s).
  { constructor; try reflexivity; try (vm_compute; intuition discriminate).
    intros _. eexists. split; reflexivity. }
  split; [exact Hs |].
  destruct (X11_streaming_device_replays_after_reset HELLOWORLD s (-1) 11 Hs
              (or_introl eq_refl) ltac:(vm_compute; lia))
    as (Hok & _ & _ & Hall).
  split; [exact Hok | exact Hall].
Defined.

(** ** Reading through the wrapping QIODevice *)

(** X12. [readData] of a wrapper around a byte-array device is a
    sequential read of the array: at the end it returns -1 and leaves the
    caller's buffer alone; before the end, asked for [maxSize >= 0] bytes,
    it returns [n = min(maxSize, size - position)], puts the [n] bytes of
    the array at the position into the first [n] bytes of the caller's
    buffer, keeps the rest of that buffer, moves the position on by [n]
    and reports it with one signal. *)
Theorem X12_wrapper_reads_a_byte_array_in_sequence
  (s : ByteArrayImpl.t) (data : list byte) (maxSize : Z) :
  0 <= ByteArrayImpl.currentPosition s ->
  0 <= maxSize ->
  let r := WrappingIoDevice.readData data maxSize (WrappingIoDevice.ctor s) in
  let n := Z.min maxSize
             (ByteArrayImpl.size s - ByteArrayImpl.currentPosition s) in
  (ByteArrayImpl.size s <= ByteArrayImpl.currentPosition s ->
   r = (-1, data, WrappingIoDevice.ctor s, []))
  /\
  (ByteArrayImpl.currentPosition s < ByteArrayImpl.size s ->
   fst (fst (fst r)) = n /\
   firstn (Z.to_nat n) (snd (fst (fst r)))
   = slice (ByteArrayImpl.byteArray s) (ByteArrayImpl.currentPosition s) n /\
   skipn (Z.to_nat n) (snd (fst (fst r))) = skipn (Z.to_nat n) data /\
   WrappingIoDevice.byteDevice (snd (fst r))
   = ByteArrayImpl.Build_t (ByteArrayImpl.byteArray s)
       (ByteArrayImpl.currentPosition s + n) /\
   snd r = [readProgress (ByteArrayImpl.currentPosition s + n)
              (ByteArrayImpl.size s)]).
Proof.
  intros Hpos Hmax. cbv zeta.
  unfold WrappingIoDevice.readData, WrappingIoDevice.ctor.
  cbn [WrappingIoDevice.byteDevice readPointer advanceReadPointer
       ByteArrayImpl_device].
  unfold ByteArrayImpl.readPointer. split.
  - intros Hend.
    replace (ByteArrayImpl.atEnd s) with true
      by (symmetry; apply ByteArrayImpl_atEnd_iff; lia).
    reflexivity.
  - intros Hin.
    replace (ByteArrayImpl.atEnd s) with false
      by (symmetry; unfold ByteArrayImpl.atEnd; rewrite Z.geb_leb;
          apply Z.leb_gt; lia).
    replace (negb (maxSize =? -1)) with true
      by (symmetry; apply negb_true_iff, Z.eqb_neq; lia).
    set (n := Z.min maxSize
                (ByteArrayImpl.size s - ByteArrayImpl.currentPosition s)).
    replace (n =? -1) with false by (symmetry; apply Z.eqb_neq; lia).
    cbn [fst snd ByteArrayImpl.advanceReadPointer app
         WrappingIoDevice.byteDevice ByteArrayImpl.byteArray
         ByteArrayImpl.currentPosition].
    unfold memcpy. cbn [bytes_at].
    change (firstn (Z.to_nat n)
              (skipn (Z.to_nat (ByteArrayImpl.currentPosition s))
                 (ByteArrayImpl.byteArray s)))
      with (slice (ByteArrayImpl.byteArray s)
              (ByteArrayImpl.currentPosition s) n).
    assert (Hlen : List.length
                     (slice (ByteArrayImpl.byteArray s)
                        (ByteArrayImpl.currentPosition s) n) = Z.to_nat n).
    { apply slice_length; unfold ByteArrayImpl.size in *; lia. }
    split; [reflexivity |].
    split; [rewrite <- Hlen, firstn_app, firstn_all, Nat.sub_diag;
            cbn; apply app_nil_r |].
    split; [| split; reflexivity].
    rewrite Hlen, skipn_app, Hlen, Nat.sub_diag.
    rewrite skipn_all2 by lia. reflexivity.
Qed.

Lemma X12_wrapper_reads_a_byte_array_in_sequence_witness :
  let s := ByteArrayImpl.Build_t HELLOWORLD 4 in
  WrappingIoDevice.readData (list_byte_of_string "........") 3
    (WrappingIoDevice.ctor s)
  = (3, list_byte_of_string "OWO.....",
     WrappingIoDevice.ctor (ByteArrayImpl.Build_t HELLOWORLD 7),
     [readProgress 7 10]) /\
  fst (fst (fst (WrappingIoDevice.readData (list_byte_of_string "........") 3
                   (WrappingIoDevice.ctor s)))) = Z.min 3 (10 - 4).
Proof.
  intros s. split; [reflexivity |].
  destruct (X12_wrapper_reads_a_byte_array_in_sequence s
              (list_byte_of_string "........") 3) as [_ Hread];
    [cbn; lia | lia |].
  exact (proj1 (Hread ltac:(vm_compute; reflexivity))).
Defined.

Section WrapperOverIoDevice.
Context {D : Type} `{QIODevice D}.

(** The QIODevice's [read] returns -1 or a count of at most [maxlen]. *)
Hypothesis read_bounded :
  forall (maxlen : Z) (d : D),
    0 <= maxlen -> -1 <= fst (fst (dev_read maxlen d)) <= maxlen.

(** X13. A wrapper around a device over a QIODevice with nothing waiting
    in the read buffer, as after construction, [reset] or an earlier
    [readData]: [readData], asked for [maxSize] bytes with room for them
    in the caller's buffer, returns between -1 and [maxSize], does not
    change the length of the caller's buffer, and again leaves nothing
    waiting in the read buffer. *)
Theorem X13_wrapper_readData_stays_within_maxSize
  (s : IoDeviceImpl.t D) (data : list byte) (maxSize : Z) :
  drained s ->
  0 <= IoDeviceImpl.currentReadBufferSize s ->
  0 <= maxSize <= Z.of_nat (List.length data) ->
  let r := WrappingIoDevice.readData data maxSize (WrappingIoDevice.ctor s) in
  -1 <= fst (fst (fst r)) <= maxSize /\
  List.length (snd (fst (fst r))) = List.length data /\
  drained (WrappingIoDevice.byteDevice (snd (fst r))) /\
  IoDeviceImpl.currentReadBufferSize (WrappingIoDevice.byteDevice (snd (fst r)))
  = IoDeviceImpl.currentReadBufferSize s.
Proof.
  unfold drained. intros Hdrained Hcap Hmax. cbv zeta.
  unfold WrappingIoDevice.readData, WrappingIoDevice.ctor.
  cbn [WrappingIoDevice.byteDevice readPointer advanceReadPointer
       IoDeviceImpl_device].
  unfold IoDeviceImpl.readPointer.
  destruct (IoDeviceImpl.eof s) eqn:Ee.
  { cbn [fst snd Z.eqb Pos.eqb WrappingIoDevice.byteDevice]. repeat split; lia. }
  fields.
  replace (IoDeviceImpl.currentReadBufferAmount s
           - IoDeviceImpl.currentReadBufferPosition s >? 0) with false
    by (symmetry; rewrite Z.gtb_ltb; apply Z.ltb_ge; lia).
  replace (maxSize =? -1) with false by (symmetry; apply Z.eqb_neq; lia).
  pose proof (read_bounded
                (Z.min maxSize (IoDeviceImpl.currentReadBufferSize s))
                (IoDeviceImpl.device s) ltac:(lia)) as Hread.
  destruct (dev_read _ _) as [[haveRead data'] d]. cbn [fst snd] in Hread.
  destruct (_ || _) eqn:Eend.
  { cbn [fst snd Z.eqb Pos.eqb WrappingIoDevice.byteDevice]. fields.
    repeat split; lia. }
  apply orb_false_iff in Eend. destruct Eend as [Em1 _].
  rewrite Em1. apply Z.eqb_neq in Em1.
  unfold IoDeviceImpl.advanceReadPointer. fields.
  replace (0 + haveRead >? haveRead) with false
    by (symmetry; rewrite Z.gtb_ltb; apply Z.ltb_ge; lia).
  cbn [fst snd WrappingIoDevice.byteDevice]. fields.
  split; [lia |]. split; [| split; [lia | reflexivity]].
  unfold memcpy. rewrite length_app, length_skipn.
  assert (Hbs : (List.length
                   (bytes_at
                      (ptr_at
                         (IoDeviceImpl.store data'
                            match IoDeviceImpl.currentReadBuffer s with
                            | Some b => b
                            | None =>
                                IoDeviceImpl.zeroed
                                  (IoDeviceImpl.currentReadBufferSize s)
                            end) 0) haveRead)
                 <= Z.to_nat haveRead)%nat).
  { cbn [bytes_at]. rewrite length_firstn. lia. }
  lia.
Qed.

End WrapperOverIoDevice.

Lemma MemDevice_read_bounded (maxlen : Z) (d : MemDevice.t) :
  0 <= maxlen -> -1 <= fst (fst (dev_read maxlen d)) <= maxlen.
Proof.
  intros Hmax. cbn [dev_read MemDevice_QIODevice].
  unfold MemDevice.read.
  replace (maxlen <? 0) with false by (symmetry; apply Z.ltb_ge; lia).
  destruct (MemDevice.bytesAvailable d <=? 0) eqn:Ea.
  - cbn [fst]. destruct (MemDevice.sequential d); lia.
  - apply Z.leb_gt in Ea. cbn [fst]. lia.
Qed.

Lemma X13_wrapper_readData_stays_within_maxSize_witness :
  let r := WrappingIoDevice.readData (list_byte_of_string "........") 3
             (WrappingIoDevice.ctor hello_device) in
  fst (fst (fst r)) = 3 /\
  snd (fst (fst r)) = list_byte_of_string "HEL....." /\
  -1 <= fst (fst (fst r)) <= 3 /\
  drained (WrappingIoDevice.byteDevice (snd (fst r))).
Proof.
  intros r. split; [reflexivity |]. split; [reflexivity |].
  destruct (X13_wrapper_readData_stays_within_maxSize MemDevice_read_bounded
              hello_device (list_byte_of_string "........") 3)
    as (Hn & _ & Hd & _).
  - unfold drained. cbn. lia.
  - cbn. lia.
  - cbn. lia.
  - split; [exact Hn | exact Hd].
Defined.

(** ** The buffer device and the byte-array device inside it *)

Lemma BufferImpl_do_call (call : Call) (s : BufferImpl.t) :
  let st := do_call call s in
  let st' := do_call call (BufferImpl.arrayImpl s) in
  ret st = ret st' /\ emitted st = emitted st' /\
  after st = BufferImpl.with_arrayImpl (after st') s.
Proof.
  destruct call as [maximumLength | amount]; cbn.
  - unfold BufferImpl.readPointer.
    destruct (ByteArrayImpl.readPointer maximumLength (BufferImpl.arrayImpl s))
      as [[[p len] a] sig]. cbn. auto.
  - auto.
Qed.

Lemma BufferImpl_run (calls : list Call) :
  forall s : BufferImpl.t,
    map (fun st => (ret st, emitted st)) (run calls s)
    = map (fun st => (ret st, emitted st)) (run calls (BufferImpl.arrayImpl s))
    /\
    Forall (fun st => BufferImpl.buffer (after st) = BufferImpl.buffer s /\
                      BufferImpl.byteArray (after st) = BufferImpl.byteArray s)
           (run calls s).
Proof.
  induction calls as [| call rest IH]; intros s; [split; constructor |].
  cbn [run map].
  destruct (BufferImpl_do_call call s) as (Hret & Hsig & Hafter).
  cbv zeta in *.
  destruct (IH (BufferImpl.with_arrayImpl
                  (after (do_call call (BufferImpl.arrayImpl s))) s))
    as [Hsame Hkept].
  cbn [BufferImpl.arrayImpl BufferImpl.with_arrayImpl
       BufferImpl.buffer BufferImpl.byteArray] in Hsame, Hkept.
  split.
  - rewrite Hret, Hsig, Hafter, Hsame. reflexivity.
  - constructor.
    + rewrite Hafter. cbn. auto.
    + rewrite Hafter. exact Hkept.
Qed.

(** X14. A device constructed over a QBuffer behaves, for every sequence
    of [readPointer] and [advanceReadPointer] calls, exactly like a
    byte-array device over the bytes from the buffer's position to its
    end: the same return values and the same signals. Its size is the
    number of those bytes, and it never touches the QBuffer. *)
Theorem X14_BufferImpl_is_a_byte_array_device_over_the_window
  (b : BufferImpl.QBuffer) (calls : list Call) :
  let window := skipn (Z.to_nat (BufferImpl.buffer_pos b))
                  (BufferImpl.buffer_data b) in
  map (fun st => (ret st, emitted st)) (run calls (BufferImpl.ctor b))
  = map (fun st => (ret st, emitted st)) (run calls (ByteArrayImpl.ctor window))
  /\ BufferImpl.size (BufferImpl.ctor b) = qsize window
  /\ Forall (fun st => BufferImpl.buffer (after st) = b)
            (run calls (BufferImpl.ctor b)).
Proof.
  intros window.
  destruct (BufferImpl_run calls (BufferImpl.ctor b)) as [Hsame Hkept].
  split; [exact Hsame |]. split; [reflexivity |].
  eapply Forall_impl; [| exact Hkept]. cbn. intros st [Hb _]. exact Hb.
Qed.

(** ** Devices from the factory *)

Lemma read_all_by_ByteArrayDevice
  {D : Type} `{QIODevice D} (maximumLength : Z) (fuel : nat) :
  forall s : ByteArrayImpl.t,
    fst (read_all_by maximumLength fuel (ByteArrayDevice (D := D) s))
    = fst (read_all_by maximumLength fuel s).
Proof.
  induction fuel as [| fuel IH]; intros s; [reflexivity |].
  cbn [read_all_by atEnd readPointer advanceReadPointer AnyDevice_device
       any_atEnd any_readPointer any_advanceReadPointer].
  destruct (atEnd s); [reflexivity |].
  destruct (readPointer maximumLength s) as [[[p len] s1] sig1].
  destruct (len =? -1); [apply IH |].
  cbn [any_advanceReadPointer].
  destruct (advanceReadPointer len s1) as [[ok s2] sig2].
  specialize (IH s2).
  destruct (read_all_by maximumLength fuel (ByteArrayDevice s2)).
  destruct (read_all_by maximumLength fuel s2).
  cbn [fst] in *. now rewrite IH.
Qed.

Lemma read_all_by_BufferDevice
  {D : Type} `{QIODevice D} (maximumLength : Z) (fuel : nat) :
  forall s : BufferImpl.t,
    fst (read_all_by maximumLength fuel (BufferDevice (D := D) s))
    = fst (read_all_by maximumLength fuel (BufferImpl.arrayImpl s)).
Proof.
  induction fuel as [| fuel IH]; intros s; [reflexivity |].
  cbn [read_all_by atEnd readPointer advanceReadPointer AnyDevice_device
       any_atEnd any_readPointer any_advanceReadPointer
       BufferImpl_device ByteArrayImpl_device].
  unfold BufferImpl.atEnd, BufferImpl.readPointer,
    BufferImpl.advanceReadPointer.
  destruct (ByteArrayImpl.atEnd (BufferImpl.arrayImpl s)); [reflexivity |].
  destruct (ByteArrayImpl.readPointer maximumLength (BufferImpl.arrayImpl s))
    as [[[p len] a1] sig1].
  destruct (len =? -1); [apply IH |].
  cbn [any_advanceReadPointer advanceReadPointer BufferImpl_device
       ByteArrayImpl_device].
  unfold BufferImpl.advanceReadPointer.
  cbn [BufferImpl.arrayImpl BufferImpl.with_arrayImpl].
  destruct (ByteArrayImpl.advanceReadPointer len a1) as [[ok a2] sig2].
  specialize (IH (BufferImpl.with_arrayImpl a2 (BufferImpl.with_arrayImpl a1 s))).
  cbn [BufferImpl.arrayImpl BufferImpl.with_arrayImpl] in IH.
  destruct (read_all_by maximumLength fuel (BufferDevice _)).
  destruct (read_all_by maximumLength fuel a2).
  cbn [fst] in *. now rewrite IH.
Qed.

Lemma read_all_by_RingBufferDevice
  {D : Type} `{QIODevice D} (maximumLength : Z) (fuel : nat) :
  forall s : RingBufferImpl.t,
    fst (read_all_by maximumLength fuel (RingBufferDevice (D := D) s))
    = fst (read_all_by maximumLength fuel s).
Proof.
  induction fuel as [| fuel IH]; intros s; [reflexivity |].
  cbn [read_all_by atEnd readPointer advanceReadPointer AnyDevice_device
       any_atEnd any_readPointer any_advanceReadPointer].
  destruct (atEnd s); [reflexivity |].
  destruct (readPointer maximumLength s) as [[[p len] s1] sig1].
  destruct (len =? -1); [apply IH |].
  cbn [any_advanceReadPointer].
  destruct (advanceReadPointer len s1) as [[ok s2] sig2].
  specialize (IH s2).
  destruct (read_all_by maximumLength fuel (RingBufferDevice s2)).
  destruct (read_all_by maximumLength fuel s2).
  cbn [fst] in *. now rewrite IH.
Qed.

Lemma read_all_by_IoDevice
  {D : Type} `{QIODevice D} (maximumLength : Z) (fuel : nat) :
  forall s : IoDeviceImpl.t D,
    fst (read_all_by maximumLength fuel (IoDevice s))
    = fst (read_all_by maximumLength fuel s).
Proof.
  induction fuel as [| fuel IH]; intros s; [reflexivity |].
  cbn [read_all_by atEnd readPointer advanceReadPointer AnyDevice_device
       any_atEnd any_readPointer any_advanceReadPointer].
  destruct (atEnd s); [reflexivity |].
  destruct (readPointer maximumLength s) as [[[p len] s1] sig1].
  destruct (len =? -1); [apply IH |].
  cbn [any_advanceReadPointer].
  destruct (advanceReadPointer len s1) as [[ok s2] sig2].
  specialize (IH s2).
  destruct (read_all_by maximumLength fuel (IoDevice s2)).
  destruct (read_all_by maximumLength fuel s2).
  cbn [fst] in *. now rewrite IH.
Qed.

Lemma ByteArrayImpl_read_all_by
  (ba : QByteArray) (maximumLength : Z) (fuel : nat) :
  maximumLength = -1 \/ 0 < maximumLength ->
  (List.length ba < fuel)%nat ->
  fst (read_all_by maximumLength fuel (ByteArrayImpl.ctor ba)) = ba.
Proof.
  intros Hmax Hfuel.
  apply (read_all_by_rest ba ByteArrayImpl.currentPosition
           (ByteArrayCalls.reachable ba) maximumLength).
  - intros s0 H0. exact (proj2 (ByteArrayCalls_reachable_inv ba s0 H0)).
  - intros s0 H0 Hend.
    destruct (ByteArrayCalls_reachable_inv ba s0 H0) as [Hba Hpos].
    apply ByteArrayImpl_atEnd_iff in Hend.
    unfold ByteArrayImpl.size in Hend. rewrite Hba in Hend. lia.
  - intros s0 H0 Hend. right.
    exact (ByteArrayImpl_round ba maximumLength s0 Hmax H0 Hend).
  - apply ByteArrayCalls.reach_ctor.
  - cbn. unfold qsize. lia.
Qed.

(** X15. Whatever source the factory is given, a consumer of the device it
    creates, with more rounds than the source has bytes, reads exactly the
    source's bytes: the byte array, the QBuffer's bytes from its position
    on, the ring buffer's chunks in order, and, for another QIODevice (the
    in-memory one), its content from its position on. *)
Theorem X15_factory_devices_deliver_their_source
  (maximumLength : Z) (fuel : nat) :
  maximumLength = -1 \/ 0 < maximumLength ->
  (forall ba : QByteArray,
      (List.length ba < fuel)%nat ->
      fst (read_all_by maximumLength fuel
             (Factory.create_byteArray (D := MemDevice.t) ba)) = ba)
  /\
  (forall b : BufferImpl.QBuffer,
      (List.length (BufferImpl.buffer_data b) < fuel)%nat ->
      fst (read_all_by maximumLength fuel
             (Factory.create (D := MemDevice.t) (Factory.is_QBuffer b)))
      = skipn (Z.to_nat (BufferImpl.buffer_pos b)) (BufferImpl.buffer_data b))
  /\
  (forall rb : RingBufferImpl.QRingBuffer,
      (List.length (List.concat rb) < fuel)%nat ->
      fst (read_all_by maximumLength fuel
             (Factory.create_ringBuffer (D := MemDevice.t) rb))
      = List.concat rb)
  /\
  (forall (content : QByteArray) (p : Z),
      0 <= p <= qsize content ->
      (List.length content < fuel)%nat ->
      fst (read_all_by maximumLength fuel
             (Factory.create
                (Factory.is_other
                   (MemDevice.move_to p (MemDevice.open content)))))
      = skipn (Z.to_nat p) content).
Proof.
  intros Hmax. split; [| split; [| split]].
  - intros ba Hfuel. unfold Factory.create_byteArray.
    rewrite read_all_by_ByteArrayDevice.
    exact (ByteArrayImpl_read_all_by ba maximumLength fuel Hmax Hfuel).
  - intros b Hfuel. unfold Factory.create.
    rewrite read_all_by_BufferDevice. cbn [BufferImpl.ctor BufferImpl.arrayImpl].
    apply ByteArrayImpl_read_all_by; [exact Hmax |].
    rewrite length_skipn. lia.
  - intros rb Hfuel. unfold Factory.create_ringBuffer.
    rewrite read_all_by_RingBufferDevice.
    pose proof (rb_size_nonneg rb) as Hsize.
    pose proof (qsize_concat rb) as Hcat. unfold qsize in Hcat.
    apply (RingBufferImpl_read_all_by (RingBufferImpl.ctor rb)
             maximumLength fuel); [| exact Hmax |];
      unfold RingBufferImpl.size, RingBufferImpl.ctor;
      cbn [RingBufferImpl.ringBuffer RingBufferImpl.currentPosition]; lia.
  - intros content p Hp Hfuel. unfold Factory.create.
    rewrite read_all_by_IoDevice.
    pose proof (streaming_read_all_by content
                  (IoDeviceImpl.ctor (MemDevice.move_to p (MemDevice.open content)))
                  maximumLength fuel (streaming_ctor content p Hp) Hmax) as Hall.
    unfold stream_offset in Hall. cbn in Hall.
    rewrite Z.add_0_r in Hall. apply Hall. unfold qsize. lia.
Qed.

Lemma X15_factory_devices_deliver_their_source_witness :
  fst (read_all_by 3 11
         (Factory.create (D := MemDevice.t)
            (Factory.is_QBuffer (BufferImpl.Build_QBuffer HELLOWORLD 5))))
  = list_byte_of_string "WORLD".
Proof.
  exact (proj1 (proj2 (X15_factory_devices_deliver_their_source 3 11
                         (or_intror eq_refl)))
           (BufferImpl.Build_QBuffer HELLOWORLD 5)
           ltac:(vm_compute; lia)).
Defined.

(** ** Devices of unknown size *)
Section UnknownSize.
Context {D : Type} `{QIODevice D}.

(** Reading from a QIODevice does not change whether it is sequential. *)
Hypothesis read_keeps_kind :
  forall (maxlen : Z) (d : D),
    dev_isSequential (snd (dev_read maxlen d)) = dev_isSequential d.
Hypothesis getChar_keeps_kind :
  forall d : D, dev_isSequential (snd (dev_getChar d)) = dev_isSequential d.

Lemma skip_loop_keeps_kind (n : nat) :
  forall (i : Z) (d : D),
    dev_isSequential (snd (IoDeviceImpl.skip_loop n i d)) = dev_isSequential d.
Proof.
  induction n as [| n IH]; intros i d; [reflexivity |].
  cbn [IoDeviceImpl.skip_loop].
  pose proof (getChar_keeps_kind d) as Hk.
  destruct (dev_getChar d) as [ok d']. cbn [snd] in Hk.
  destruct ok; [rewrite IH | cbn [snd]]; exact Hk.
Qed.

Lemma sequential_do_call (call : Call) (s : IoDeviceImpl.t D) :
  dev_isSequential (IoDeviceImpl.device s) = true ->
  dev_isSequential (IoDeviceImpl.device (after (do_call call s))) = true /\
  (succeeded (do_call call s) ->
   Forall (fun sig => total sig = current sig) (emitted (do_call call s))).
Proof.
  intros Hseq. destruct call as [maximumLength | amount];
    cbn [do_call readPointer advanceReadPointer IoDeviceImpl_device].
  - unfold IoDeviceImpl.readPointer.
    destruct (IoDeviceImpl.eof s); [cbn; split; [exact Hseq | constructor] |].
    fields. destruct (_ >? 0); [cbn; split; [exact Hseq | constructor] |].
    pose proof (read_keeps_kind
                  (Z.min (if maximumLength =? -1
                          then IoDeviceImpl.currentReadBufferSize s
                          else maximumLength)
                         (IoDeviceImpl.currentReadBufferSize s))
                  (IoDeviceImpl.device s)) as Hk.
    destruct (dev_read _ _) as [[haveRead data] d]. cbn [snd] in Hk.
    rewrite Hseq in Hk.
    destruct (_ || _); cbn [after emitted]; fields.
    + split; [exact Hk |]. intros _.
      destruct (_ =? -1); repeat constructor.
    + split; [exact Hk | constructor].
  - unfold IoDeviceImpl.advanceReadPointer, IoDeviceImpl.size. fields.
    rewrite Hseq. cbn [Z.eqb Pos.eqb].
    destruct (_ >? _); [| cbn; split; [exact Hseq | repeat constructor]].
    pose proof (skip_loop_keeps_kind
                  (Z.to_nat (IoDeviceImpl.currentReadBufferPosition s + amount
                             - IoDeviceImpl.currentReadBufferAmount s))
                  (IoDeviceImpl.currentReadBufferPosition s + amount
                   - IoDeviceImpl.currentReadBufferAmount s)
                  (IoDeviceImpl.device s)) as Hk.
    destruct (IoDeviceImpl.skip_loop _ _ _) as [[i |] d]; cbn [snd] in Hk;
      rewrite Hseq in Hk; cbn [after emitted ret]; fields.
    + split; [exact Hk |]. unfold succeeded. cbn. congruence.
    + split; [exact Hk |]. intros _. repeat constructor.
Qed.

(** X16. A device over a QIODevice that is sequential, and stays so when
    it is read, has no known size: [size()] is -1 after every call, and
    every signal of a [readPointer] or of an [advanceReadPointer] that
    did not fail reports a total equal to its current value. *)
Theorem X16_sequential_device_reports_total_as_current
  (s : IoDeviceImpl.t D) (calls : list Call) :
  dev_isSequential (IoDeviceImpl.device s) = true ->
  Forall (fun st =>
            IoDeviceImpl.size (after st) = -1 /\
            (succeeded st ->
             Forall (fun sig => total sig = current sig) (emitted st)))
         (run calls s).
Proof.
  revert s. induction calls as [| call rest IH]; intros s Hseq;
    [constructor |].
  cbn [run]. destruct (sequential_do_call call s Hseq) as [Hseq' Hsig].
  constructor; [| exact (IH _ Hseq')].
  split; [| exact Hsig]. unfold IoDeviceImpl.size. now rewrite Hseq'.
Qed.

End UnknownSize.

Lemma X16_sequential_device_reports_total_as_current_witness :
  let calls := [CallReadPointer (-1); CallAdvance 10; CallReadPointer (-1)] in
  map emitted (run calls hello_pipe)
  = [[]; [readProgress 10 10]; [readProgress 10 10]] /\
  Forall (fun st =>
            IoDeviceImpl.size (after st) = -1 /\
            (succeeded st ->
             Forall (fun sig => total sig = current sig) (emitted st)))
         (run calls hello_pipe).
Proof.
  intros calls. split; [reflexivity |].
  apply X16_sequential_device_reports_total_as_current.
  - intros maxlen d. cbn [dev_read dev_isSequential MemDevice_QIODevice].
    unfold MemDevice.read.
    destruct (maxlen <? 0); [reflexivity |].
    destruct (_ <=? 0); reflexivity.
  - intros d. cbn [dev_getChar dev_isSequential MemDevice_QIODevice].
    unfold MemDevice.getChar. destruct (_ <=? 0); reflexivity.
  - reflexivity.
Defined.
